(** * AWS.Client (lib/client.js): version resolution, retry policy,
      endpoint selection and request construction.

    A shallow embedding of the methods of [AWS.Client] together with the
    properties the specification states about them.  JavaScript objects used
    as maps are finite maps, thrown [Error]s are the [Throw] case of a result
    type carrying the message, and state (the version registry that
    [defineClientApi] memoizes into) is passed explicitly. *)

From Stdlib Require Import ZArith Lia.
From Stdlib Require Import Ascii String.
From stdpp Require Import base option list gmap strings sorting.

(** ** JavaScript values as the client code uses them *)

Module JS.

(** A value that is either [undefined] or a string. *)
Definition maybe_string := option string.

(** [if (s)] on a string: every string but the empty one is truthy. *)
Definition truthy_string (s : string) : bool :=
  negb (String.eqb s EmptyString).

(** [if (v)] on a string-or-undefined value. *)
Definition truthy (v : maybe_string) : bool :=
  match v with
  | Some s => truthy_string s
  | None => false
  end.

(** String conversion as done by [+] with a string operand. *)
Definition to_string (v : maybe_string) : string :=
  match v with
  | Some s => s
  | None => "undefined"
  end.

(** A function either returns or throws [new Error(message)]. *)
Inductive result (A : Type) : Type :=
| Ok (a : A)
| Throw (message : string).
Arguments Ok {A} a.
Arguments Throw {A} message.

Definition bind {A B} (r : result A) (k : A -> result B) : result B :=
  match r with
  | Ok a => k a
  | Throw m => Throw m
  end.

(** [a[i] = x] on an array: in range it overwrites, past the end the array
    grows, the skipped slots being holes ([None]). *)
Definition array_set {A} (a : list (option A)) (i : nat) (x : A)
  : list (option A) :=
  if decide (i < length a)
  then <[i := Some x]> a
  else a ++ replicate (i - length a) None ++ [Some x].

(** A number as the retry schedule holds it: a double whose value is an
    integer, or [Infinity]. *)
Inductive number : Type :=
| Num (z : Z)
| Infinity.

(** [Number.MAX_VALUE], the greatest finite double. *)
Definition MAX_VALUE : Z := ((2 ^ 53 - 1) * 2 ^ 971)%Z.

(** [Math.pow(2, i)] for a non-negative integer [i]: a power of two is a
    double as long as it is in range, and the result is [Infinity] beyond. *)
Definition Math_pow_2 (i : nat) : number :=
  if (2 ^ Z.of_nat i <=? MAX_VALUE)%Z then Num (2 ^ Z.of_nat i)
  else Infinity.

(** [x * 30] on a power of two: the product has a significand of four bits,
    so the double holds it exactly as long as it is in range; beyond, the
    multiplication overflows to [Infinity]. *)
Definition times_30 (x : number) : number :=
  match x with
  | Num z => if (z * 30 <=? MAX_VALUE)%Z then Num (z * 30) else Infinity
  | Infinity => Infinity
  end.

(** [x < y] on numbers. *)
Definition lt_number (x y : number) : bool :=
  match x, y with
  | Num a, Num b => (a <? b)%Z
  | Num _, Infinity => true
  | Infinity, _ => false
  end.

End JS.

Export JS.

Notation "x <- r ;; k" := (bind r (fun x => k))
  (at level 100, r at next level, right associativity).

(** [s1 <= s2] on strings: lexicographic on the code units. *)
Abbreviation str_le := String.le.

(** ** Data model *)

(** The requested API version: absent, a string, or a [Date] (carried as the
    text [AWS.util.date.iso8601] renders it to). *)
Inductive version_arg : Type :=
| VUndefined
| VString (s : string)
| VDate (iso8601 : string).

(** The API descriptor: the properties the client reads, and the names of
    whatever other own properties it carries. *)
Record Api : Type := {
  format : maybe_string;
  globalEndpoint : maybe_string;
  endpointPrefix : maybe_string;
  operations : option (list string);
  other_properties : list string
}.

(** [api: {}] of [AWS.Client.prototype] (line 89). *)
Definition empty_api : Api :=
  {| format := None; globalEndpoint := None; endpointPrefix := None;
     operations := None; other_properties := [] |}.

(** A class produced by [defineClientApi]: the API bound on its prototype
    and the members its prototype chain defines. *)
Record BoundClass : Type := {
  bound_serviceIdentifier : maybe_string;
  bound_api : Api;
  bound_members : list string
}.

(** The registry [clients] of a service, a plain object whose prototype is
    [Object.prototype]: its own properties, version key to [null] ([None])
    until the version is loaded, then to its class. *)
Abbreviation registry := (gmap string (option BoundClass)).

(** The constructor function of a client ([this.constructor]): its statics
    [serviceIdentifier] and [clients], the [api] its prototype provides and
    the names its prototype chain defines. *)
Record ClientClass : Type := {
  serviceIdentifier : maybe_string;
  clients : option registry;
  proto_api : Api;
  proto_members : list string
}.

(** The configuration object.  [maxRetries] is a non-negative integer when
    defined. *)
Record Config : Type := {
  region : maybe_string;
  maxRetries : option nat;
  paramValidation : bool;
  config_endpoint : maybe_string;
  apiVersion : version_arg;
  apiVersions : gmap string version_arg;
  apiConfig : option Api
}.

(** Modelled from the spec: [AWS.Endpoint], whose source is not part of
    [lib/client.js]; an endpoint is built from a host and the configuration
    and is immutable afterwards. *)
Record Endpoint : Type := {
  host : string;
  endpoint_config : Config
}.

(** A client instance: [this.config], [this.api], [this.endpoint], and the
    [defaultRetryCount] a client class or instance overrides the prototype's
    with, if it does. *)
Record Client : Type := {
  config : Config;
  api : Api;
  own_defaultRetryCount : option nat;
  endpoint : option Endpoint
}.

(** An error delivered by the request pipeline. *)
Record ErrorObj : Type := {
  code : maybe_string;
  statusCode : option Z
}.

(** Parameters and response data are plain objects. *)
Abbreviation js_object := (gmap string string).

Record Response : Type := {
  error : option ErrorObj;
  data : option js_object
}.

(** A function value, known by its identity. *)
Inductive js_function : Type :=
| Function (name : string).

(** The listener sets of [lib/event_listeners]. *)
Inductive ListenerSet : Type :=
| AWS_events
| EventListeners_Core
| EventListeners_Query
| EventListeners_Json
| EventListeners_RestJson
| EventListeners_RestXml.

(** The handlers the client registers or removes. *)
Inductive handler : Type :=
| VALIDATE_PARAMETERS
| complete_callback (callback : js_function).

(** Modelled from the spec: [AWS.Request], whose source is not part of
    [lib/client.js]; a request is bound to (client, operation, params),
    collects listener sets and handlers in attachment order and has a sent
    flag. *)
Record Request : Type := {
  request_client : Client;
  operation : string;
  params : option js_object;
  listener_sets : list ListenerSet;
  removed_listeners : list (string * handler);
  listeners : list (string * handler);
  sent : bool
}.

(** The second argument of [makeRequest]. *)
Inductive params_arg : Type :=
| ParamsUndefined
| ParamsObject (o : js_object)
| ParamsFunction (f : js_function).

(** [typeof params === 'function']. *)
Definition is_function (p : params_arg) : bool :=
  match p with
  | ParamsFunction _ => true
  | _ => false
  end.

(** The second argument of [defineClientApi]. *)
Inductive api_source : Type :=
| ApiVersion (version : string)
| ApiDescriptor (descriptor : Api).

(** What a call made by a handler looks like: [callee.call(this, args)]. *)
Record Call : Type := {
  callee : js_function;
  call_this : Response;
  call_arguments : option ErrorObj * option js_object
}.

(** ** Version resolution *)

(** The value read by a property access [clients.name] on the registry. *)
Inductive property_value : Type :=
| PUndefined
| PNull
| PNumber (n : Z)
| PClass (c : BoundClass).

Definition get_property (reg : registry) (name : string) : property_value :=
  match reg !! name with
  | Some (Some c) => PClass c
  | Some None => PNull
  | None => PUndefined
  end.

(** [v === 0]. *)
Definition strict_eq_zero (v : property_value) : bool :=
  match v with
  | PNumber n => Z.eqb n 0
  | _ => false
  end.

(** [s.split('T')[0]]: the text before the first [T]. *)
Fixpoint split_T_head (s : string) : string :=
  match s with
  | EmptyString => EmptyString
  | String c rest =>
      if Ascii.eqb c "T"%char then EmptyString
      else String c (split_T_head rest)
  end.

(** [!version] (line 70): [undefined] and the empty string are falsy, a
    [Date] is an object and truthy. *)
Definition absent (version : version_arg) : bool :=
  match version with
  | VUndefined => true
  | VString s => negb (truthy_string s)
  | VDate _ => false
  end.

(** Lines 70-74: an absent version becomes ['latest'], a [Date] its day. *)
Definition normalize_version (version : version_arg) : string :=
  if absent version then "latest"
  else
    match version with
    | VDate iso => split_T_head iso
    | VString s => s
    | VUndefined => "latest"
    end.

(** The own property names of the [Object] constructor function. *)
Definition Object_own_property_names : list string :=
  [ "length"; "name"; "prototype"; "assign"; "getOwnPropertyDescriptor";
    "getOwnPropertyDescriptors"; "getOwnPropertyNames";
    "getOwnPropertySymbols"; "hasOwn"; "is"; "preventExtensions"; "seal";
    "create"; "defineProperties"; "defineProperty"; "freeze";
    "getPrototypeOf"; "setPrototypeOf"; "isExtensible"; "isFrozen";
    "isSealed"; "keys"; "entries"; "fromEntries"; "values"; "groupBy" ].

(** The [TypeError] of a failed conversion to a primitive value; engines
    word it differently, the embedding keeps one message for it. *)
Definition to_primitive_message : string :=
  "TypeError: Cannot convert object to primitive value".

(** The conversion of the registry to a property key: [clients.toString()]
    is tried first, then [clients.valueOf()].  The inherited [toString]
    gives ["[object Object]"].  An own key [toString] shadows it: holding
    [null] it cannot be called, and [valueOf] gives no primitive value (the
    inherited one returns the registry itself), so the conversion throws;
    holding a loaded class, the conversion calls the class as a function on
    the registry.  [AWS.util.inherit], which builds the class, is not part
    of [lib/client.js]; the call is taken to fail as the constructor of
    lines 25-29 does on an object that is no client. *)
Definition registry_to_key (reg : registry) : result string :=
  match reg !! "toString" with
  | Some _ => Throw to_primitive_message
  | None => Ok "[object Object]"
  end.

(** [Object.hasOwnProperty(clients, version)] at line 76.  The call is
    [Object.prototype.hasOwnProperty] with [Object] itself as receiver and
    the registry as the property name: the registry is converted to a
    property key, and the second argument is never looked at. *)
Definition Object_hasOwnProperty (reg : registry) (version : string)
  : result bool :=
  key <- registry_to_key reg ;;
  Ok (bool_decide (key ∈ Object_own_property_names)).

(** [Object.keys(clients).sort()]: the own keys, in ascending order. *)
Definition sorted_keys (reg : registry) : list string :=
  merge_sort str_le (map_to_list reg).*1.

(** The loop of lines 81-83, entered with [n = i + 1]. *)
Fixpoint scan_keys (keys : list string) (version : string) (n : nat)
  : option string :=
  match n with
  | O => None
  | S i =>
      match keys !! i with
      | Some k =>
          if decide (str_le k version) then Some k
          else scan_keys keys version i
      | None => scan_keys keys version i
      end
  end.

Definition no_clients_message (cls : ClientClass) : string :=
  "No clients defined on " +:+ to_string (serviceIdentifier cls).

Definition version_constraint_message (cls : ClientClass) (version : string)
  : string :=
  "Could not find " +:+ to_string (serviceIdentifier cls) +:+
  " API to satisfy version constraint `" +:+ version +:+ "'".

(** Lines 76-86, run on the normalized version: the own-property test, then
    the scan of the sorted keys, then the error. *)
Definition find_version (cls : ClientClass) (reg : registry)
    (version : string) : result string :=
  own <- Object_hasOwnProperty reg version ;;
  if (own : bool) then Ok version
  else
    let keys := sorted_keys reg in
    match scan_keys keys version (length keys) with
    | Some k => Ok k
    | None => Throw (version_constraint_message cls version)
    end.

(** [getLatestClientVersion(version)] (lines 63-87). *)
Definition getLatestClientVersion (cls : ClientClass) (version : version_arg)
  : result string :=
  match clients cls with
  | None => Throw (no_clients_message cls)
  | Some reg =>
      if strict_eq_zero (get_property reg "length")
      then Throw (no_clients_message cls)
      else find_version cls reg (normalize_version version)
  end.

(** ** Class definition: [defineMethods], [defineClient], [defineClientApi] *)

(** The names [AWS.Client.prototype] defines (lines 25-201), after those it
    inherits from [Object.prototype]. *)
Definition Client_prototype_members : list string :=
  [ "toString"; "toLocaleString"; "valueOf"; "hasOwnProperty";
    "isPrototypeOf"; "propertyIsEnumerable";
    "__defineGetter__"; "__defineSetter__"; "__lookupGetter__";
    "__lookupSetter__"; "__proto__";
    "constructor"; "initialize"; "loadClientClass"; "getLatestClientClass";
    "getLatestClientVersion"; "api"; "defaultRetryCount"; "makeRequest";
    "addAllRequestListeners"; "setupRequestListeners"; "serviceInterface";
    "successfulResponse"; "numRetries"; "retryDelays"; "retryableError";
    "networkingError"; "expiredCredentialsError"; "throttledError";
    "setEndpoint" ].

(** [defineMethods]: one method per operation, a name the prototype already
    defines being left alone.  The result lists the prototype's names. *)
Definition defineMethods (members : list string) (a : Api) : list string :=
  foldl (fun ms method =>
           if bool_decide (method ∈ ms) then ms else ms ++ [method])
        members (default [] (operations a)).

(** The [features] mixed into a client class by [defineClient]. *)
Record Features : Type := {
  feature_api : option Api;
  feature_members : list string
}.

(** The first argument of [defineClient]. *)
Inductive service_arg : Type :=
| ServiceIdentifier (s : string)
| ServiceApi (a : Api).

(** The versions hash of lines 229-232, for versions other than
    [__proto__], the one name whose assignment creates no key. *)
Definition versions_hash (versions : list string) : registry :=
  foldl (fun reg v => <[v := None]> reg) ∅ versions.

(** [defineClient(serviceIdentifier, versions, features)], with [versions]
    the empty array when it is left out. *)
Definition defineClient (service : service_arg) (versions : list string)
    (features : Features) : ClientClass :=
  let members := Client_prototype_members ++ feature_members features in
  let a := default empty_api (feature_api features) in
  match service with
  | ServiceIdentifier s =>
      {| serviceIdentifier := Some s;
         clients := Some (versions_hash versions);
         proto_api := a;
         proto_members := members |}
  | ServiceApi descriptor =>
      {| serviceIdentifier := None;
         clients := None;
         proto_api := descriptor;
         proto_members := defineMethods members descriptor |}
  end.

(** Modelled from the spec: [AWS.util.isEmpty], the test of line 39, lives
    in [lib/util], which is not part of [lib/client.js]; a descriptor is
    empty when it has no own property. *)
Definition isEmpty (a : Api) : bool :=
  match format a, globalEndpoint a, endpointPrefix a, operations a,
        other_properties a with
  | None, None, None, None, [] => true
  | _, _, _, _, _ => false
  end.

Definition api_not_found_message (apiFile : string) : string :=
  "Could not find API configuration " +:+ apiFile.

(** The class with [reg] as its [clients]. *)
Definition with_clients (cls : ClientClass) (reg : option registry)
  : ClientClass :=
  {| serviceIdentifier := serviceIdentifier cls;
     clients := reg;
     proto_api := proto_api cls;
     proto_members := proto_members cls |}.

Section loading.

(** The API catalog: what [require('./services/api/' + apiFile)] yields, if
    the file exists. *)
Variable require_api : string → option Api.

(** The client's effective configuration:
    [new AWS.Config(AWS.config)] updated with the client's own options. *)
Variable effective_config : Config → Config.

(** [defineClientApi(superclass, version)]; the registry written to is
    returned with the class. *)
Definition defineClientApi (superclass : ClientClass) (version : api_source)
  : result (BoundClass * ClientClass) :=
  let members :=
    proto_members superclass ++
    (if truthy (serviceIdentifier superclass) then ["serviceIdentifier"]
     else []) in
  let client a :=
    {| bound_serviceIdentifier := serviceIdentifier superclass;
       bound_api := a;
       bound_members := defineMethods members a |} in
  match version with
  | ApiVersion v =>
      let apiFile := to_string (serviceIdentifier superclass) +:+ "-" +:+ v in
      match require_api apiFile with
      | None => Throw (api_not_found_message apiFile)
      | Some a =>
          match clients superclass with
          | None => Throw "TypeError: Cannot set property of undefined"
          | Some reg =>
              Ok (client a,
                  {| serviceIdentifier := serviceIdentifier superclass;
                     clients := Some (<[v := Some (client a)]> reg);
                     proto_api := proto_api superclass;
                     proto_members := proto_members superclass |})
          end
      end
  | ApiDescriptor a => Ok (client a, superclass)
  end.

(** [getLatestClientClass(version)] (lines 54-61). *)
Definition getLatestClientClass (cls : ClientClass) (version : version_arg)
  : result (option BoundClass * ClientClass) :=
  version <- getLatestClientVersion cls version ;;
  match clients cls with
  | None => Throw "TypeError: Cannot read property of undefined"
  | Some reg =>
      cls' <- match reg !! version with
              | Some None =>
                  defined <- defineClientApi cls (ApiVersion version) ;;
                  Ok (snd defined)
              | _ => Ok cls
              end ;;
      Ok (from_option (fun reg' => mjoin (reg' !! version)) None
                      (clients cls'),
          cls')
  end.

(** [a || b] on versions. *)
Definition version_or (a b : version_arg) : version_arg :=
  if absent a then b else a.

(** The version [loadClientClass] asks for (lines 46-49). *)
Definition requested_version (cls : ClientClass) (clientConfig : Config)
  : version_arg :=
  let config := effective_config clientConfig in
  let version :=
    default VUndefined
            (apiVersions config !! to_string (serviceIdentifier cls)) in
  version_or version (apiVersion config).

(** [loadClientClass(clientConfig)] (lines 37-52), run on a fresh instance of
    [cls]: [this.api] is the prototype's.  [None] is the plain [return;]. *)
Definition loadClientClass (cls : ClientClass) (clientConfig : Config)
  : result (option BoundClass * ClientClass) :=
  if negb (isEmpty (proto_api cls)) then Ok (None, cls)
  else
    match apiConfig clientConfig with
    | Some descriptor =>
        defined <- defineClientApi cls (ApiDescriptor descriptor) ;;
        Ok (Some (fst defined), snd defined)
    | None =>
        match clients cls with
        | None => Ok (None, cls)
        | Some _ =>
            getLatestClientClass cls (requested_version cls clientConfig)
        end
    end.

End loading.

(** ** Endpoint selection *)

(** [this.endpoint = e]. *)
Definition set_endpoint (c : Client) (e : Endpoint) : Client :=
  {| config := config c; api := api c;
     own_defaultRetryCount := own_defaultRetryCount c;
     endpoint := Some e |}.

(** Modelled from the spec: [new AWS.Endpoint(host, config)]. *)
Definition new_Endpoint (h : string) (cfg : Config) : Endpoint :=
  {| host := h; endpoint_config := cfg |}.

(** The host synthesized at line 198. *)
Definition regional_host (c : Client) : string :=
  to_string (endpointPrefix (api c)) +:+ "." +:+
  to_string (region (config c)) +:+ ".amazonaws.com".

(** [setEndpoint(endpoint)] (lines 192-201). *)
Definition setEndpoint (c : Client) (endpoint_arg : maybe_string) : Client :=
  if truthy endpoint_arg then
    set_endpoint c (new_Endpoint (to_string endpoint_arg) (config c))
  else if truthy (globalEndpoint (api c)) then
    set_endpoint c
      (new_Endpoint (to_string (globalEndpoint (api c))) (config c))
  else
    set_endpoint c (new_Endpoint (regional_host c) (config c)).

(** ** Retry policy *)

(** [v == s] and [v === s] agree when [v] is a string or [undefined]. *)
Definition eq_string (v : maybe_string) (s : string) : bool :=
  match v with
  | Some c => String.eqb c s
  | None => false
  end.

(** [n >= 500]; [undefined >= 500] is false. *)
Definition ge_500 (n : option Z) : bool :=
  match n with
  | Some s => (500 <=? s)%Z
  | None => false
  end.

Definition networkingError (e : ErrorObj) : bool :=
  eq_string (code e) "NetworkingError".

Definition expiredCredentialsError (e : ErrorObj) : bool :=
  eq_string (code e) "ExpiredTokenException".

Definition throttledError (e : ErrorObj) : bool :=
  eq_string (code e) "ProvisionedThroughputExceededException".

Definition retryableError (e : ErrorObj) : bool :=
  if networkingError e then true
  else if expiredCredentialsError e then true
  else if throttledError e then true
  else if ge_500 (statusCode e) then true
  else false.

(** [defaultRetryCount: 3] on the prototype (line 91). *)
Definition prototype_defaultRetryCount : nat := 3.

(** [this.defaultRetryCount], looked up through the prototype chain. *)
Definition defaultRetryCount (c : Client) : nat :=
  default prototype_defaultRetryCount (own_defaultRetryCount c).

Definition numRetries (c : Client) : nat :=
  match maxRetries (config c) with
  | Some n => n
  | None => defaultRetryCount c
  end.

(** The loop of lines 164-166, with [remaining = retryCount - i]. *)
Fixpoint retryDelays_loop (remaining i : nat)
    (delays : list (option number)) : list (option number) :=
  match remaining with
  | O => delays
  | S remaining' =>
      retryDelays_loop remaining' (S i)
        (array_set delays i (times_30 (Math_pow_2 i)))
  end.

Definition retryDelays (c : Client) : list (option number) :=
  retryDelays_loop (numRetries c) 0 [].

(** ** Requests *)

(** Modelled from the spec: [new AWS.Request(client, operation, params)],
    a request with nothing attached and not sent; omitted parameters
    default to the empty object. *)
Definition new_Request (c : Client) (op : string) (p : option js_object)
  : Request :=
  {| request_client := c; operation := op; params := Some (default ∅ p);
     listener_sets := []; removed_listeners := []; listeners := [];
     sent := false |}.

(** Modelled from the spec: [request.addListeners(listeners)] of the
    missing [AWS.Request]; listener sets attach additively, in order. *)
Definition addListeners (r : Request) (l : ListenerSet) : Request :=
  {| request_client := request_client r; operation := operation r;
     params := params r;
     listener_sets := listener_sets r ++ [l];
     removed_listeners := removed_listeners r;
     listeners := listeners r; sent := sent r |}.

(** Modelled from the spec: [request.removeListener(phase, handler)] of the
    missing [AWS.Request]; the removal is recorded. *)
Definition removeListener (r : Request) (phase : string) (h : handler)
  : Request :=
  {| request_client := request_client r; operation := operation r;
     params := params r;
     listener_sets := listener_sets r;
     removed_listeners := removed_listeners r ++ [(phase, h)];
     listeners := listeners r; sent := sent r |}.

(** Modelled from the spec: [request.on(phase, handler)] of the missing
    [AWS.Request]; handlers run in attachment order. *)
Definition on (r : Request) (phase : string) (h : handler) : Request :=
  {| request_client := request_client r; operation := operation r;
     params := params r;
     listener_sets := listener_sets r;
     removed_listeners := removed_listeners r;
     listeners := listeners r ++ [(phase, h)]; sent := sent r |}.

(** Modelled from the spec: [request.send()] of the missing [AWS.Request];
    only the sent flag is kept of the run through the pipeline. *)
Definition send (r : Request) : Request :=
  {| request_client := request_client r; operation := operation r;
     params := params r;
     listener_sets := listener_sets r;
     removed_listeners := removed_listeners r;
     listeners := listeners r; sent := true |}.

(** What running a handler on a response does: the function registered at
    lines 103-105 calls [callback.call(resp, resp.error, resp.data)]. *)
Definition run_handler (h : handler) (resp : Response) : option Call :=
  match h with
  | complete_callback callback =>
      Some {| callee := callback; call_this := resp;
              call_arguments := (error resp, data resp) |}
  | VALIDATE_PARAMETERS => None
  end.

Definition invalid_format_message (f : string) : string :=
  "Invalid service `format' " +:+ f +:+ " in API config".

(** [serviceInterface()] (lines 131-143): the [switch] compares the format
    with each label by [===], in order; [Ok None] is falling off the end. *)
Definition serviceInterface (c : Client) : result (option ListenerSet) :=
  let f := format (api c) in
  if eq_string f "query" then Ok (Some EventListeners_Query)
  else if eq_string f "json" then Ok (Some EventListeners_Json)
  else if eq_string f "rest-json" then Ok (Some EventListeners_RestJson)
  else if eq_string f "rest-xml" then Ok (Some EventListeners_RestXml)
  else if truthy f then Throw (invalid_format_message (to_string f))
  else Ok None.

(** [setupRequestListeners] (line 128) does nothing. *)
Definition setupRequestListeners (c : Client) (r : Request) : Request := r.

(** [addAllRequestListeners(request)] (lines 112-126). *)
Definition addAllRequestListeners (c : Client) (request : Request)
  : result Request :=
  interface <- serviceInterface c ;;
  let list := [Some AWS_events; Some EventListeners_Core; interface] in
  let request :=
    foldl (fun r l => match l with
                      | Some ls => addListeners r ls
                      | None => r
                      end) request list in
  let request :=
    if negb (paramValidation (config c))
    then removeListener request "validate" VALIDATE_PARAMETERS
    else request in
  Ok (setupRequestListeners c request).

(** [makeRequest(operation, params, callback)] (lines 93-110). *)
Definition makeRequest (c : Client) (op : string) (p : params_arg)
    (callback : option js_function) : result Request :=
  let callback :=
    match p with ParamsFunction f => Some f | _ => callback end in
  let p :=
    match p with
    | ParamsFunction _ => Some ∅
    | ParamsObject o => Some o
    | ParamsUndefined => None
    end in
  let request := new_Request c op p in
  request <- addAllRequestListeners c request ;;
  match callback with
  | Some f => Ok (send (on request "complete" (complete_callback f)))
  | None => Ok request
  end.

(** ** Vocabulary of the specification *)

Definition is_digit (c : ascii) : bool :=
  (48 <=? N_of_ascii c)%N && (N_of_ascii c <=? 57)%N.

(** A [YYYY-MM-DD] key. *)
Definition is_iso_date (s : string) : bool :=
  match list_ascii_of_string s with
  | [y1; y2; y3; y4; h1; m1; m2; h2; d1; d2] =>
      forallb is_digit [y1; y2; y3; y4; m1; m2; d1; d2]
      && Ascii.eqb h1 "-" && Ascii.eqb h2 "-"
  | _ => false
  end.

Definition registered (reg : registry) (k : string) : Prop :=
  is_Some (reg !! k).

(** [k] is the greatest registered key that is [<= v]. *)
Definition greatest_key_le (reg : registry) (v k : string) : Prop :=
  registered reg k ∧ str_le k v ∧
  ∀ k', registered reg k' → str_le k' v → str_le k' k.

(** [k] is the greatest registered key. *)
Definition greatest_key (reg : registry) (k : string) : Prop :=
  registered reg k ∧ ∀ k', registered reg k' → str_le k' k.

(** No [features] argument. *)
Definition no_features : Features :=
  {| feature_api := None; feature_members := [] |}.

Definition custom_versions : list string := ["2001-01-01"; "1999-05-05"].

(** The service of the test suite:
    [AWS.Client.defineClient('custom', ['2001-01-01', '1999-05-05'])]. *)
Definition CustomClient : ClientClass :=
  defineClient (ServiceIdentifier "custom") custom_versions no_features.

(** [AWS.Client.defineClient('custom', [])]: a service without versions. *)
Definition EmptyClient : ClientClass :=
  defineClient (ServiceIdentifier "custom") [] no_features.


(** A registry that carries the key [toString]. *)
Definition ToStringClient : ClientClass :=
  defineClient (ServiceIdentifier "custom") ["2001-01-01"; "toString"]
               no_features.


(** The conditions under which an error is retried. *)
Definition retry_conditions (e : ErrorObj) : Prop :=
  code e = Some "NetworkingError" ∨
  code e = Some "ExpiredTokenException" ∨
  code e = Some "ProvisionedThroughputExceededException" ∨
  ∃ s, statusCode e = Some s ∧ (500 ≤ s)%Z.

(** The schedule as a function of the index. *)
Definition delay (i : nat) : Z := (2 ^ Z.of_nat i * 30)%Z.

(** The value line 165 computes for the index [i]. *)
Definition delay_at (i : nat) : number := times_30 (Math_pow_2 i).

(** Example clients. *)
Definition default_config : Config :=
  {| region := Some "us-east-1"; maxRetries := None; paramValidation := true;
     config_endpoint := None; apiVersion := VUndefined; apiVersions := ∅;
     apiConfig := None |}.

Definition client_with_format (f : maybe_string) : Client :=
  {| config := default_config;
     api := {| format := f; globalEndpoint := None;
               endpointPrefix := Some "fooservice";
               operations := Some ["operationName"];
               other_properties := [] |};
     own_defaultRetryCount := None;
     endpoint := None |}.

Definition JsonClient : Client := client_with_format (Some "json").

Definition SoapClient : Client := client_with_format (Some "soap").

Definition FormatlessClient : Client := client_with_format None.

(** A client whose API declares a global endpoint. *)
Definition GlobalClient : Client :=
  {| config := default_config;
     api := {| format := Some "query";
               globalEndpoint := Some "fooservice.amazonaws.com";
               endpointPrefix := Some "fooservice";
               operations := None; other_properties := [] |};
     own_defaultRetryCount := None;
     endpoint := None |}.

(** A client whose API carries the empty string as its format. *)
Definition EmptyFormatClient : Client :=
  client_with_format (Some EmptyString).

(** Options with an empty service-specific version and a global one. *)
Definition empty_entry_config : Config :=
  {| region := None; maxRetries := None; paramValidation := true;
     config_endpoint := None; apiVersion := VString "2000-01-01";
     apiVersions := {[ "custom" := VString EmptyString ]};
     apiConfig := None |}.

(** A catalog without any API file, as in the test suite. *)
Definition no_api_files (apiFile : string) : option Api := None.

(** The formats a service may declare. *)
Definition valid_formats : list string :=
  ["query"; "json"; "rest-json"; "rest-xml"].

(** ** The rest of the client *)

(** [resp.httpResponse]: the status the transport reported, if any. *)
Record HttpResponse : Type := {
  http_statusCode : option Z
}.

(** [successfulResponse(resp)] (lines 145-147), on [resp.httpResponse];
    [undefined < 300] is false. *)
Definition successfulResponse (httpResponse : HttpResponse) : bool :=
  match http_statusCode httpResponse with
  | Some s => (s <? 300)%Z
  | None => false
  end.

Section initialization.

(** [new AWS.Config(AWS.config)], the copy of the global configuration. *)
Variable global_config : Config.

(** That copy updated with the client's own options. *)
Variable effective_config : Config → Config.

(** [initialize(config)] (lines 31-35) on the instance [this]. *)
Definition initialize (this : Client) (options : option Config) : Client :=
  let cfg :=
    match options with
    | Some o => effective_config o
    | None => global_config
    end in
  setEndpoint {| config := cfg; api := api this;
                 own_defaultRetryCount := own_defaultRetryCount this;
                 endpoint := endpoint this |}
              (config_endpoint cfg).

End initialization.

(** ** Vocabulary of the further properties *)

(** The text contains the letter [T]. *)
Fixpoint has_T (s : string) : bool :=
  match s with
  | EmptyString => false
  | String c rest => Ascii.eqb c "T"%char || has_T rest
  end.

(** The sum of two delays as real numbers. *)
Definition add_number (x y : number) : number :=
  match x, y with
  | Num a, Num b => Num (a + b)
  | _, _ => Infinity
  end.

(** The time a schedule waits in all: the sum of its delays as real
    numbers, a hole counting for nothing. *)
Definition total_delay (delays : list (option number)) : number :=
  foldr (fun d acc => add_number (default (Num 0%Z) d) acc) (Num 0%Z) delays.

(** The client with [n] as its [config.maxRetries]. *)
Definition with_maxRetries (c : Client) (n : option nat) : Client :=
  {| config := {| region := region (config c); maxRetries := n;
                  paramValidation := paramValidation (config c);
                  config_endpoint := config_endpoint (config c);
                  apiVersion := apiVersion (config c);
                  apiVersions := apiVersions (config c);
                  apiConfig := apiConfig (config c) |};
     api := api c;
     own_defaultRetryCount := own_defaultRetryCount c;
     endpoint := endpoint c |}.

(** The class [defineClientApi] builds on [superclass] for the API [a]. *)
Definition bind_api (superclass : ClientClass) (a : Api) : BoundClass :=
  {| bound_serviceIdentifier := serviceIdentifier superclass;
     bound_api := a;
     bound_members :=
       defineMethods
         (proto_members superclass ++
          (if truthy (serviceIdentifier superclass)
           then ["serviceIdentifier"] else []))
         a |}.

(** One step of the loop of [defineMethods] (lines 211-216). *)
Definition add_method (ms : list string) (method : string) : list string :=
  if bool_decide (method ∈ ms) then ms else ms ++ [method].

(** The name of the API file of a version. *)
Definition api_file (cls : ClientClass) (version : string) : string :=
  to_string (serviceIdentifier cls) +:+ "-" +:+ version.

(** A catalog with the two API files of the test service. *)
Definition custom_api (prefix : string) : Api :=
  {| format := Some "json"; globalEndpoint := None;
     endpointPrefix := Some prefix;
     operations := Some ["describeThings"; "makeRequest"; "listThings"];
     other_properties := [] |}.

Definition custom_catalog (apiFile : string) : option Api :=
  if String.eqb apiFile "custom-2001-01-01" then Some (custom_api "v2001")
  else if String.eqb apiFile "custom-1999-05-05" then Some (custom_api "v1999")
  else None.

(** ** The order on strings *)

Section string_order.

Lemma is_digit_lt_letter c :
  is_digit c = true → Ascii.compare c "l" = Lt.
Proof.
  unfold is_digit, Ascii.compare. intros [_ H]%andb_prop.
  apply N.leb_le in H. apply N.compare_lt_iff.
  change (N_of_ascii "l") with 108%N. lia.
Qed.

Lemma iso_date_le_latest k : is_iso_date k = true → str_le k "latest".
Proof.
  destruct k as [|c k]; [done|].
  unfold is_iso_date. simpl.
  destruct (list_ascii_of_string k) as [|c2 l]; [done|].
  do 8 (destruct l as [|? l]; [done|]).
  destruct l; [|done].
  intros [[[Hc _]%andb_prop _]%andb_prop _]%andb_prop.
  unfold String.le, String.leb. simpl.
  by rewrite (is_digit_lt_letter c Hc).
Qed.

End string_order.

(** ** The scan over the sorted keys *)

Section scan.

Lemma StronglySorted_lookup_le (keys : list string) (i j : nat) x y :
  StronglySorted str_le keys →
  keys !! i = Some x → keys !! j = Some y → i ≤ j → str_le x y.
Proof.
  intros Hs. revert i j.
  induction Hs as [|k keys Hs IH Hall]; intros i j Hi Hj Hij; [done|].
  destruct i as [|i], j as [|j]; simplify_eq/=.
  - reflexivity.
  - rewrite Forall_forall in Hall. apply Hall.
    apply list_elem_of_lookup. eauto.
  - lia.
  - apply (IH i j); auto with lia.
Qed.

Lemma scan_keys_Some keys v n k :
  scan_keys keys v n = Some k →
  ∃ i, i < n ∧ keys !! i = Some k ∧ str_le k v ∧
       ∀ j k', i < j < n → keys !! j = Some k' → ¬ str_le k' v.
Proof.
  induction n as [|n IH]; simpl; [done|].
  destruct (keys !! n) as [kn|] eqn:Hn.
  - destruct (decide (str_le kn v)) as [Hle|Hnle].
    + intros [= <-]. exists n. repeat split; auto with lia.
    + intros (i & Hi & Hk & Hle & Habove)%IH.
      exists i. repeat split; auto with lia.
      intros j k' Hj Hk'. destruct (decide (j = n)) as [->|].
      * congruence.
      * apply (Habove j); auto with lia.
  - intros (i & Hi & Hk & Hle & Habove)%IH.
    exists i. repeat split; auto with lia.
    intros j k' Hj Hk'. destruct (decide (j = n)) as [->|].
    + congruence.
    + apply (Habove j); auto with lia.
Qed.

Lemma scan_keys_None keys v n :
  scan_keys keys v n = None →
  ∀ j k', j < n → keys !! j = Some k' → ¬ str_le k' v.
Proof.
  induction n as [|n IH]; simpl; [intros; lia|].
  destruct (keys !! n) as [kn|] eqn:Hn.
  - destruct (decide (str_le kn v)) as [Hle|Hnle]; [done|].
    intros H j k' Hj Hk'. destruct (decide (j = n)) as [->|].
    + congruence.
    + apply (IH H j); auto with lia.
  - intros H j k' Hj Hk'. destruct (decide (j = n)) as [->|].
    + congruence.
    + apply (IH H j); auto with lia.
Qed.

Lemma elem_of_sorted_keys (reg : registry) k :
  k ∈ sorted_keys reg ↔ registered reg k.
Proof.
  unfold sorted_keys, registered. rewrite merge_sort_Permutation.
  rewrite list_elem_of_fmap. split.
  - intros ([k' x] & -> & Hin). apply elem_of_map_to_list in Hin. eauto.
  - intros [x Hx]. exists (k, x). split; [done|].
    by apply elem_of_map_to_list.
Qed.

Lemma sorted_keys_sorted (reg : registry) :
  StronglySorted str_le (sorted_keys reg).
Proof. apply StronglySorted_merge_sort; apply _. Qed.

Lemma scan_sorted_keys_Some (reg : registry) v k :
  scan_keys (sorted_keys reg) v (length (sorted_keys reg)) = Some k →
  greatest_key_le reg v k.
Proof.
  intros (i & Hi & Hk & Hle & Habove)%scan_keys_Some.
  split; [|split]; [|done|].
  - apply elem_of_sorted_keys, list_elem_of_lookup. eauto.
  - intros k' [j Hj]%elem_of_sorted_keys%list_elem_of_lookup Hle'.
    destruct (decide (j ≤ i)) as [Hji|Hji].
    + eapply StronglySorted_lookup_le; eauto using sorted_keys_sorted.
    + exfalso. apply (Habove j k'); [|done..].
      apply lookup_lt_Some in Hj. lia.
Qed.

Lemma scan_sorted_keys_None (reg : registry) v :
  scan_keys (sorted_keys reg) v (length (sorted_keys reg)) = None →
  ∀ k, registered reg k → ¬ str_le k v.
Proof.
  intros Hscan k [j Hj]%elem_of_sorted_keys%list_elem_of_lookup.
  eapply scan_keys_None; eauto. by apply lookup_lt_Some in Hj.
Qed.

Lemma greatest_key_le_unique (reg : registry) v k1 k2 :
  greatest_key_le reg v k1 → greatest_key_le reg v k2 → k1 = k2.
Proof.
  intros (Hr1 & Hle1 & Hmax1) (Hr2 & Hle2 & Hmax2).
  apply (anti_symm str_le); auto.
Qed.

End scan.

(** ** What [getLatestClientVersion] returns *)

Section version_resolution.

Lemma length_property_not_zero (reg : registry) :
  strict_eq_zero (get_property reg "length") = false.
Proof. unfold get_property. by destruct (reg !! "length") as [[?|]|]. Qed.

Lemma Object_hasOwnProperty_false (reg : registry) version :
  ¬ registered reg "toString" →
  Object_hasOwnProperty reg version = Ok false.
Proof.
  intros Hn. unfold Object_hasOwnProperty, registry_to_key.
  destruct (reg !! "toString") as [x|] eqn:Hx; [|done].
  destruct Hn. by exists x.
Qed.

Lemma Object_hasOwnProperty_throws (reg : registry) version :
  registered reg "toString" →
  Object_hasOwnProperty reg version = Throw to_primitive_message.
Proof.
  intros [x Hx]. unfold Object_hasOwnProperty, registry_to_key.
  by rewrite Hx.
Qed.

Lemma iso_keys_no_toString (reg : registry) :
  (∀ k, registered reg k → is_iso_date k = true) →
  ¬ registered reg "toString".
Proof. intros Hiso Hr. specialize (Hiso _ Hr). discriminate Hiso. Qed.

Lemma resolution_is_scan cls reg version :
  clients cls = Some reg →
  ¬ registered reg "toString" →
  getLatestClientVersion cls version =
    match scan_keys (sorted_keys reg) (normalize_version version)
            (length (sorted_keys reg)) with
    | Some k => Ok k
    | None =>
        Throw (version_constraint_message cls (normalize_version version))
    end.
Proof.
  intros Hreg Hn. unfold getLatestClientVersion, find_version. rewrite Hreg.
  by rewrite length_property_not_zero, Object_hasOwnProperty_false.
Qed.

(** With [toString] among its keys, the registry cannot be converted at
    line 76, whatever the version asked for. *)
Lemma resolution_to_primitive cls reg version :
  clients cls = Some reg →
  registered reg "toString" →
  getLatestClientVersion cls version = Throw to_primitive_message.
Proof.
  intros Hreg Hr. unfold getLatestClientVersion, find_version. rewrite Hreg.
  by rewrite length_property_not_zero, Object_hasOwnProperty_throws.
Qed.

Lemma resolution_Ok_no_toString cls reg version k :
  clients cls = Some reg →
  getLatestClientVersion cls version = Ok k →
  ¬ registered reg "toString".
Proof.
  intros Hreg Hk Hr.
  by rewrite (resolution_to_primitive cls reg version Hreg Hr) in Hk.
Qed.

(** Every call on a class with a registry free of the key [toString] either
    returns the greatest key below the normalized version, or throws the
    constraint error, no key qualifying. *)
Lemma resolution_cases cls reg version :
  clients cls = Some reg →
  ¬ registered reg "toString" →
  match getLatestClientVersion cls version with
  | Ok k => greatest_key_le reg (normalize_version version) k
  | Throw m =>
      m = version_constraint_message cls (normalize_version version) ∧
      ∀ k, registered reg k → ¬ str_le k (normalize_version version)
  end.
Proof.
  intros Hreg Hn. rewrite (resolution_is_scan cls reg version Hreg Hn).
  destruct (scan_keys _ _ _) as [k|] eqn:Hscan.
  - by apply scan_sorted_keys_Some.
  - split; [done|]. by apply scan_sorted_keys_None.
Qed.

Lemma resolution_greatest cls reg version k :
  clients cls = Some reg →
  ¬ registered reg "toString" →
  greatest_key_le reg (normalize_version version) k →
  getLatestClientVersion cls version = Ok k.
Proof.
  intros Hreg Hn Hk.
  pose proof (resolution_cases cls reg version Hreg Hn) as Hc.
  destruct (getLatestClientVersion cls version) as [k'|m].
  - f_equal. eapply greatest_key_le_unique; eauto.
  - destruct Hc as [_ Hnone]. destruct Hk as (Hr & Hle & _).
    by destruct (Hnone k Hr).
Qed.


End version_resolution.

(** ** The registry built by [defineClient] *)

Section define_client.

Lemma registered_foldl_insert (versions : list string) (reg : registry) k :
  registered (foldl (fun reg v => <[v := None]> reg) reg versions) k ↔
  registered reg k ∨ k ∈ versions.
Proof.
  revert reg. induction versions as [|v versions IH]; intros reg; simpl.
  - rewrite elem_of_nil. tauto.
  - rewrite IH, elem_of_cons. unfold registered.
    rewrite lookup_insert_is_Some.
    destruct (decide (v = k)) as [->|]; intuition congruence.
Qed.

Lemma registered_versions_hash versions k :
  registered (versions_hash versions) k ↔ k ∈ versions.
Proof.
  unfold versions_hash. rewrite registered_foldl_insert.
  unfold registered. rewrite lookup_empty. split; [|by right].
  intros [[? ?]|?]; done.
Qed.

End define_client.

(** ** Claims on version resolution *)

Section custom_client.

Lemma CustomClient_registered k :
  registered (versions_hash custom_versions) k ↔ k ∈ custom_versions.
Proof. apply registered_versions_hash. Qed.

Lemma CustomClient_iso_keys k :
  registered (versions_hash custom_versions) k → is_iso_date k = true.
Proof.
  intros Hk%CustomClient_registered. unfold custom_versions in Hk.
  rewrite !elem_of_cons, elem_of_nil in Hk.
  by destruct Hk as [->|[->|[]]].
Qed.


Lemma CustomClient_nonempty : versions_hash custom_versions ≠ ∅.
Proof.
  intros Heq.
  assert (registered (versions_hash custom_versions) "2001-01-01") as Hr.
  { apply registered_versions_hash. apply list_elem_of_here. }
  unfold registered in Hr. rewrite Heq, lookup_empty in Hr.
  by destruct Hr.
Qed.

Lemma nothing_below_empty_string k :
  registered (versions_hash custom_versions) k → ¬ str_le k EmptyString.
Proof.
  intros Hk%CustomClient_registered. unfold custom_versions in Hk.
  rewrite !elem_of_cons, elem_of_nil in Hk.
  destruct Hk as [->|[->|[]]]; by vm_compute.
Qed.

End custom_client.

(** C1, as amended.  On a non-empty registry whose keys are ISO dates, a
    non-empty requested version string [v] resolves to the greatest
    registered key that is [<= v], and to the version-constraint error when
    no registered key is [<= v]; a version that is absent or the empty
    string (one the test [!version] accepts) is resolved as the literal
    ["latest"], which yields the greatest registered key. *)
Theorem getLatestClientVersion_greatest_key_le cls reg :
  clients cls = Some reg →
  reg ≠ ∅ →
  (∀ k, registered reg k → is_iso_date k = true) →
  (∀ v, v ≠ EmptyString →
     ((∃ k, registered reg k ∧ str_le k v) →
      ∃ k, getLatestClientVersion cls (VString v) = Ok k ∧
           greatest_key_le reg v k) ∧
     ((∀ k, registered reg k → ¬ str_le k v) →
      getLatestClientVersion cls (VString v) =
        Throw (version_constraint_message cls v))) ∧
  (∀ version, version = VUndefined ∨ version = VString EmptyString →
     getLatestClientVersion cls version =
       getLatestClientVersion cls (VString "latest") ∧
     ∃ k, getLatestClientVersion cls version = Ok k ∧ greatest_key reg k).
Proof.
  intros Hreg Hne Hiso.
  pose proof (iso_keys_no_toString reg Hiso) as Hts. split.
  - intros v Hv.
    assert (normalize_version (VString v) = v) as Hnorm.
    { unfold normalize_version. simpl. unfold truthy_string.
      by apply String.eqb_neq in Hv as ->. }
    pose proof (resolution_cases cls reg (VString v) Hreg Hts) as Hc.
    rewrite Hnorm in Hc. split.
    + intros (k0 & Hr0 & Hle0).
      destruct (getLatestClientVersion cls (VString v)) as [k|m]; [eauto|].
      destruct Hc as [_ Hnone]. by destruct (Hnone k0 Hr0).
    + intros Hnone.
      destruct (getLatestClientVersion cls (VString v)) as [k|m].
      * destruct Hc as (Hr & Hle & _). by destruct (Hnone k Hr).
      * by destruct Hc as [-> _].
  - intros version Habs.
    assert (normalize_version version = "latest") as Hnorm.
    { by destruct Habs as [-> | ->]. }
    split.
    { rewrite !(resolution_is_scan cls reg) by done.
      by rewrite Hnorm. }
    pose proof (resolution_cases cls reg version Hreg Hts) as Hc.
    rewrite Hnorm in Hc.
    destruct (getLatestClientVersion cls version) as [k|m].
    + exists k. split; [done|]. destruct Hc as (Hr & _ & Hmax).
      split; [done|]. intros k' Hr'. apply Hmax; [done|].
      by apply iso_date_le_latest, Hiso.
    + destruct Hc as [_ Hnone].
      destruct (map_choose reg Hne) as (k0 & x & Hk0).
      assert (registered reg k0) as Hr0 by (by exists x).
      destruct (Hnone k0 Hr0). by apply iso_date_le_latest, Hiso.
Qed.

Lemma getLatestClientVersion_greatest_key_le_witness :
  clients CustomClient = Some (versions_hash custom_versions) ∧
  (∃ k, getLatestClientVersion CustomClient (VString "2000-01-01") = Ok k ∧
        greatest_key_le (versions_hash custom_versions) "2000-01-01" k) ∧
  getLatestClientVersion CustomClient (VString "1998-01-01")
    = Throw (version_constraint_message CustomClient "1998-01-01") ∧
  (∃ k, getLatestClientVersion CustomClient VUndefined = Ok k ∧
        greatest_key (versions_hash custom_versions) k).
Proof.
  destruct (getLatestClientVersion_greatest_key_le
              CustomClient (versions_hash custom_versions)
              eq_refl CustomClient_nonempty CustomClient_iso_keys)
    as [Hstring Habsent].
  split; [reflexivity|]. split; [|split].
  - apply (Hstring "2000-01-01"); [done|].
    exists "1999-05-05". split.
    + apply CustomClient_registered.
      unfold custom_versions. rewrite !elem_of_cons. auto.
    + by vm_compute.
  - apply (Hstring "1998-01-01"); [done|].
    intros k Hk%CustomClient_registered. unfold custom_versions in Hk.
    rewrite !elem_of_cons, elem_of_nil in Hk.
    destruct Hk as [->|[->|[]]]; by vm_compute.
  - apply (Habsent VUndefined). by left.
Defined.

(** C1, as stated, fails on the empty version string: no registered key is
    below it, and yet the call does not throw the version-constraint error,
    it returns the latest key. *)
Lemma getLatestClientVersion_empty_string :
  clients CustomClient = Some (versions_hash custom_versions) ∧
  (∀ k, registered (versions_hash custom_versions) k →
        ¬ str_le k EmptyString) ∧
  getLatestClientVersion CustomClient (VString EmptyString)
    = Ok "2001-01-01" ∧
  getLatestClientVersion CustomClient (VString EmptyString)
    ≠ Throw (version_constraint_message CustomClient EmptyString).
Proof.
  split; [reflexivity|]. split; [apply nothing_below_empty_string|].
  assert (getLatestClientVersion CustomClient (VString EmptyString)
          = Ok "2001-01-01") as -> by (by vm_compute).
  done.
Qed.

(** The scenario of the specification: with versions 1999-05-05 and
    2001-01-01 registered, 2000-01-01 resolves to 1999-05-05. *)
Example resolve_fuzzy :
  getLatestClientVersion CustomClient (VString "2000-01-01")
  = Ok "1999-05-05".
Proof. by vm_compute. Qed.

Example resolve_latest :
  getLatestClientVersion CustomClient VUndefined = Ok "2001-01-01".
Proof. by vm_compute. Qed.

Example resolve_date :
  getLatestClientVersion CustomClient (VDate "2000-06-15T12:00:00Z")
  = Ok "1999-05-05".
Proof. by vm_compute. Qed.

Example resolve_unsatisfiable :
  getLatestClientVersion CustomClient (VString "1998-01-01")
  = Throw "Could not find custom API to satisfy version constraint `1998-01-01'".
Proof. by vm_compute. Qed.

Lemma resolution_on_empty_registry cls version :
  clients cls = Some ∅ →
  getLatestClientVersion cls version =
    Throw (version_constraint_message cls (normalize_version version)).
Proof.
  intros Hreg.
  assert (¬ registered (∅ : registry) "toString") as Hts.
  { intros [x Hx]. by rewrite lookup_empty in Hx. }
  pose proof (resolution_cases cls ∅ version Hreg Hts) as Hc.
  destruct (getLatestClientVersion cls version) as [k|m].
  - destruct Hc as ([x Hx] & _). by rewrite lookup_empty in Hx.
  - by destruct Hc as [-> _].
Qed.

(** C4.  A service defined with no versions has the empty registry [{}];
    resolving a version on it does not throw "No clients defined on custom":
    the test [clients.length === 0] reads a property the registry object
    does not have, and the call ends in the version-constraint error. *)
Theorem getLatestClientVersion_empty_registry :
  clients EmptyClient = Some ∅ ∧
  no_clients_message EmptyClient = "No clients defined on custom" ∧
  getLatestClientVersion EmptyClient VUndefined =
    Throw "Could not find custom API to satisfy version constraint `latest'" ∧
  getLatestClientVersion EmptyClient VUndefined ≠
    Throw (no_clients_message EmptyClient).
Proof.
  assert (clients EmptyClient = Some ∅) as Hreg by reflexivity.
  split; [done|]. split; [reflexivity|].
  rewrite (resolution_on_empty_registry EmptyClient VUndefined Hreg).
  split; [reflexivity|]. by vm_compute.
Qed.




(** A registry with the key [toString] answers no request at all: line 76
    fails to convert it, whatever the version. *)
Example getLatestClientVersion_toString_key :
  registered (versions_hash ["2001-01-01"; "toString"]) "toString" ∧
  clients ToStringClient
    = Some (versions_hash ["2001-01-01"; "toString"]) ∧
  getLatestClientVersion ToStringClient (VString "toString")
    = Throw to_primitive_message ∧
  getLatestClientVersion ToStringClient (VString "2001-01-01")
    = Throw to_primitive_message.
Proof.
  split.
  { apply registered_versions_hash. rewrite !elem_of_cons. auto. }
  split; [reflexivity|]. split; by vm_compute.
Qed.

(** ** Claims on the retry policy *)

Section retry.

Lemma eq_string_true v s : eq_string v s = true ↔ v = Some s.
Proof.
  destruct v as [c|]; simpl; [|done].
  rewrite String.eqb_eq. split; congruence.
Qed.

Lemma ge_500_true n : ge_500 n = true ↔ ∃ s, n = Some s ∧ (500 ≤ s)%Z.
Proof.
  destruct n as [s|]; simpl.
  - rewrite Z.leb_le. split; [eauto|]. by intros (? & [= <-] & ?).
  - split; [done|]. by intros (? & ? & ?).
Qed.

Lemma retryableError_true e : retryableError e = true ↔ retry_conditions e.
Proof.
  unfold retryableError, retry_conditions.
  unfold networkingError, expiredCredentialsError, throttledError.
  rewrite <- !eq_string_true, <- ge_500_true.
  destruct (eq_string (code e) "NetworkingError"),
    (eq_string (code e) "ExpiredTokenException"),
    (eq_string (code e) "ProvisionedThroughputExceededException"),
    (ge_500 (statusCode e)); intuition congruence.
Qed.

End retry.

(** C2.  [retryableError e] is true exactly when the code is
    ['NetworkingError'], ['ExpiredTokenException'] or
    ['ProvisionedThroughputExceededException'], or the status is at least
    500; it is false in every other case, among them any status in
    [200, 500) together with any other code. *)
Theorem retryableError_exactly e :
  (retryableError e = true ↔
     code e = Some "NetworkingError" ∨
     code e = Some "ExpiredTokenException" ∨
     code e = Some "ProvisionedThroughputExceededException" ∨
     ∃ s, statusCode e = Some s ∧ (500 ≤ s)%Z) ∧
  (retryableError e = false ↔
     code e ≠ Some "NetworkingError" ∧
     code e ≠ Some "ExpiredTokenException" ∧
     code e ≠ Some "ProvisionedThroughputExceededException" ∧
     ∀ s, statusCode e = Some s → (s < 500)%Z) ∧
  (∀ c s, code e = Some c → statusCode e = Some s →
     c ≠ "NetworkingError" → c ≠ "ExpiredTokenException" →
     c ≠ "ProvisionedThroughputExceededException" →
     (200 ≤ s < 500)%Z → retryableError e = false).
Proof.
  pose proof (retryableError_true e) as Ht. unfold retry_conditions in Ht.
  assert (retryableError e = false ↔
            code e ≠ Some "NetworkingError" ∧
            code e ≠ Some "ExpiredTokenException" ∧
            code e ≠ Some "ProvisionedThroughputExceededException" ∧
            ∀ s, statusCode e = Some s → (s < 500)%Z) as Hf.
  { rewrite <- not_true_iff_false, Ht. split.
    - intros Hn. repeat split; try (intros Hc; apply Hn; tauto).
      intros s Hs. destruct (decide (s < 500)%Z) as [|Hge]; [done|].
      exfalso. apply Hn. do 3 right. exists s. split; [done|lia].
    - intros (H1 & H2 & H3 & H4) [?|[?|[?|(s & Hs & Hge)]]]; try done.
      specialize (H4 s Hs). lia. }
  split; [done|]. split; [done|].
  intros c s Hc Hs Hn1 Hn2 Hn3 Hrange. apply Hf. rewrite Hc.
  repeat split; try congruence.
  intros s' Hs'. rewrite Hs in Hs'. injection Hs' as <-. lia.
Qed.

(** The cases of the test suite. *)
Example retry_throttled :
  retryableError {| code := Some "ProvisionedThroughputExceededException";
                    statusCode := Some 400%Z |} = true.
Proof. reflexivity. Qed.

Example retry_server_error :
  retryableError {| code := Some "RandomError"; statusCode := Some 505%Z |}
  = true.
Proof. reflexivity. Qed.

Example no_retry_not_found :
  retryableError {| code := Some "Error"; statusCode := Some 404%Z |} = false.
Proof. reflexivity. Qed.

Section retry_delays.

Lemma array_set_end {A} (a : list (option A)) (x : A) :
  array_set a (length a) x = a ++ [Some x].
Proof.
  unfold array_set. destruct (decide (length a < length a)) as [|_]; [lia|].
  by rewrite Nat.sub_diag.
Qed.

Lemma retryDelays_loop_spec remaining i delays :
  length delays = i →
  retryDelays_loop remaining i delays =
    delays ++ ((fun k => Some (delay_at k)) <$> seq i remaining).
Proof.
  revert i delays.
  induction remaining as [|remaining IH]; intros i delays Hlen; simpl.
  - by rewrite app_nil_r.
  - subst i. rewrite array_set_end.
    rewrite IH by (rewrite length_app; simpl; lia).
    by rewrite <- app_assoc.
Qed.

Lemma retryDelays_spec c :
  retryDelays c = (fun k => Some (delay_at k)) <$> seq 0 (numRetries c).
Proof. unfold retryDelays. by rewrite retryDelays_loop_spec. Qed.

Lemma retryDelays_lookup c (i : nat) x :
  retryDelays c !! i = Some (Some x) ↔ i < numRetries c ∧ x = delay_at i.
Proof.
  rewrite retryDelays_spec, list_lookup_fmap. split.
  - destruct (seq 0 (numRetries c) !! i) as [k|] eqn:Hk; simpl; [|done].
    apply lookup_seq in Hk as [-> Hlt]. intros [= <-]. done.
  - intros [Hlt ->]. by rewrite (lookup_seq_lt 0 _ _ Hlt).
Qed.

Lemma delay_strict_mono (i j : nat) : i < j → (delay i < delay j)%Z.
Proof.
  intros Hij. unfold delay.
  apply Z.mul_lt_mono_pos_r; [lia|].
  apply Z.pow_lt_mono_r; lia.
Qed.

(** The last delay a double holds, and the first it does not. *)
Lemma delay_1019_in_range : (2 ^ 1019 * 30 ≤ MAX_VALUE)%Z.
Proof. apply Z.leb_le. vm_compute. reflexivity. Qed.

Lemma delay_1020_out_of_range : (MAX_VALUE < 2 ^ 1020 * 30)%Z.
Proof. apply Z.ltb_lt. vm_compute. reflexivity. Qed.

Lemma delay_at_finite (i : nat) : i < 1020 → delay_at i = Num (delay i).
Proof.
  intros Hi. unfold delay_at, Math_pow_2, times_30, delay.
  pose proof delay_1019_in_range as Hmax.
  assert (2 ^ Z.of_nat i ≤ 2 ^ 1019)%Z as Hle
    by (apply Z.pow_le_mono_r; lia).
  assert (0 < 2 ^ Z.of_nat i)%Z as Hpos by (apply Z.pow_pos_nonneg; lia).
  revert Hmax Hle Hpos.
  generalize (2 ^ Z.of_nat i)%Z (2 ^ 1019)%Z MAX_VALUE.
  intros x y m Hmax Hle Hpos.
  assert ((x <=? m)%Z = true) as -> by (apply Z.leb_le; lia).
  by assert ((x * 30 <=? m)%Z = true) as -> by (apply Z.leb_le; lia).
Qed.

Lemma delay_at_infinite (i : nat) : 1020 ≤ i → delay_at i = Infinity.
Proof.
  intros Hi. unfold delay_at, Math_pow_2, times_30.
  pose proof delay_1020_out_of_range as Hmax.
  assert (2 ^ 1020 ≤ 2 ^ Z.of_nat i)%Z as Hle
    by (apply Z.pow_le_mono_r; lia).
  revert Hmax Hle.
  generalize (2 ^ Z.of_nat i)%Z (2 ^ 1020)%Z MAX_VALUE.
  intros x y m Hmax Hle.
  destruct (x <=? m)%Z; [|done].
  by assert ((x * 30 <=? m)%Z = false) as -> by (apply Z.leb_gt; lia).
Qed.

End retry_delays.

(** C3, as amended.  On a client with at most 1020 retries, [retryDelays()]
    has [numRetries()] elements, the element at index [i] is [2^i * 30], and
    the elements are strictly increasing with the index. *)
Theorem retryDelays_exponential c :
  numRetries c ≤ 1020 →
  length (retryDelays c) = numRetries c ∧
  (∀ i : nat, i < numRetries c →
     retryDelays c !! i = Some (Some (Num (2 ^ Z.of_nat i * 30)%Z))) ∧
  (∀ (i j : nat) x y, i < j →
     retryDelays c !! i = Some (Some x) →
     retryDelays c !! j = Some (Some y) → lt_number x y = true).
Proof.
  intros Hn. split; [|split].
  - by rewrite retryDelays_spec, length_fmap, length_seq.
  - intros i Hi. apply retryDelays_lookup. split; [done|].
    symmetry. apply delay_at_finite. lia.
  - intros i j x y Hij [Hi ->]%retryDelays_lookup [Hj ->]%retryDelays_lookup.
    rewrite !delay_at_finite by lia. simpl.
    by apply Z.ltb_lt, delay_strict_mono.
Qed.

Lemma retryDelays_exponential_witness :
  length (retryDelays JsonClient) = 3 ∧
  retryDelays JsonClient !! 2 = Some (Some (Num 120%Z)).
Proof.
  assert (numRetries JsonClient ≤ 1020) as Hn by (vm_compute; lia).
  destruct (retryDelays_exponential JsonClient Hn) as (Hlen & Hi & _).
  split; [exact Hlen|]. apply (Hi 2). vm_compute. lia.
Defined.

(** C3, as stated, fails on a client with more than 1020 retries: the
    number [2^1020 * 30] is beyond the greatest double, so the elements from
    index 1020 on are [Infinity], and they do not increase. *)
Lemma retryDelays_overflow :
  numRetries (with_maxRetries JsonClient (Some 1022)) = 1022 ∧
  retryDelays (with_maxRetries JsonClient (Some 1022)) !! 1019
    = Some (Some (Num (2 ^ 1019 * 30)%Z)) ∧
  retryDelays (with_maxRetries JsonClient (Some 1022)) !! 1020
    = Some (Some Infinity) ∧
  retryDelays (with_maxRetries JsonClient (Some 1022)) !! 1021
    = Some (Some Infinity) ∧
  Infinity ≠ Num (2 ^ 1020 * 30)%Z ∧
  lt_number Infinity Infinity = false.
Proof.
  split; [reflexivity|]. split_and!.
  - apply retryDelays_lookup. split; [change (numRetries _) with 1022; lia|].
    by rewrite delay_at_finite by lia.
  - apply retryDelays_lookup. split; [change (numRetries _) with 1022; lia|].
    by rewrite delay_at_infinite by lia.
  - apply retryDelays_lookup. split; [change (numRetries _) with 1022; lia|].
    by rewrite delay_at_infinite by lia.
  - discriminate.
  - reflexivity.
Qed.

(** C8.  [numRetries()] is [config.maxRetries] whenever that is defined,
    the value 0 included, in which case [retryDelays()] is empty; it is the
    [defaultRetryCount] otherwise, which is the prototype's 3 unless the
    client overrides it. *)
Theorem numRetries_maxRetries c :
  (∀ n, maxRetries (config c) = Some n → numRetries c = n) ∧
  (maxRetries (config c) = Some 0 →
     numRetries c = 0 ∧ retryDelays c = []) ∧
  (maxRetries (config c) = None → own_defaultRetryCount c = None →
     numRetries c = 3) ∧
  (maxRetries (config c) = None →
     ∀ d, own_defaultRetryCount c = Some d → numRetries c = d) ∧
  (numRetries c = prototype_defaultRetryCount →
     maxRetries (config c) = Some 3 ∨
     maxRetries (config c) = None ∧
       (own_defaultRetryCount c = None ∨ own_defaultRetryCount c = Some 3)).
Proof.
  split; [|split; [|split; [|split]]].
  - unfold numRetries. by intros n ->.
  - intros Hm. rewrite retryDelays_spec. unfold numRetries. by rewrite Hm.
  - unfold numRetries, defaultRetryCount. by intros -> ->.
  - unfold numRetries, defaultRetryCount. by intros -> d ->.
  - unfold numRetries, defaultRetryCount, prototype_defaultRetryCount.
    destruct (maxRetries (config c)) as [n|]; [intros ->; by left|].
    destruct (own_defaultRetryCount c) as [d|]; simpl.
    + intros ->. right. split; [done|]. by right.
    + intros _. right. split; [done|]. by left.
Qed.

(** The tests "should use config max retry value if defined" and "should use
    defaultRetries defined on object if undefined on config". *)
Example numRetries_configured :
  numRetries {| config := {| region := None; maxRetries := Some 30;
                             paramValidation := true;
                             config_endpoint := None;
                             apiVersion := VUndefined; apiVersions := ∅;
                             apiConfig := None |};
                api := empty_api; own_defaultRetryCount := None;
                endpoint := None |} = 30.
Proof. reflexivity. Qed.

Example numRetries_overridden :
  numRetries {| config := default_config; api := empty_api;
                own_defaultRetryCount := Some 13; endpoint := None |} = 13.
Proof. reflexivity. Qed.

(** The delays of the specification's third scenario. *)
Example retryDelays_default :
  retryDelays JsonClient
  = [Some (Num 30%Z); Some (Num 60%Z); Some (Num 120%Z)].
Proof. reflexivity. Qed.

(** ** Claims on endpoint selection *)

(** C6, as amended.  [setEndpoint] always leaves the client with an
    endpoint, built on the client's configuration.  Its host is the endpoint
    argument when that is a non-empty string; otherwise the API's
    [globalEndpoint] when that is a non-empty string; otherwise the text
    [endpointPrefix.region.amazonaws.com]. *)
Theorem setEndpoint_priority c endpoint_arg :
  ∃ e,
    endpoint (setEndpoint c endpoint_arg) = Some e ∧
    endpoint_config e = config c ∧
    config (setEndpoint c endpoint_arg) = config c ∧
    api (setEndpoint c endpoint_arg) = api c ∧
    (∀ h, endpoint_arg = Some h → h ≠ EmptyString → host e = h) ∧
    (endpoint_arg = None ∨ endpoint_arg = Some EmptyString →
     ∀ g, globalEndpoint (api c) = Some g → g ≠ EmptyString → host e = g) ∧
    (endpoint_arg = None ∨ endpoint_arg = Some EmptyString →
     globalEndpoint (api c) = None ∨
     globalEndpoint (api c) = Some EmptyString →
     host e = to_string (endpointPrefix (api c)) +:+ "." +:+
              to_string (region (config c)) +:+ ".amazonaws.com").
Proof.
  assert (∀ v : maybe_string,
            (v = None ∨ v = Some EmptyString) ↔ truthy v = false) as Hfalsy.
  { intros [h|]; simpl; [|split; [done|by left]].
    unfold truthy_string. rewrite negb_false_iff, String.eqb_eq. split.
    - by intros [[=]|[= ->]].
    - intros ->. by right. }
  assert (∀ h, h ≠ EmptyString → truthy (Some h) = true) as Htruthy.
  { intros h Hh. simpl. unfold truthy_string.
    by apply String.eqb_neq in Hh as ->. }
  unfold setEndpoint.
  destruct (truthy endpoint_arg) eqn:He;
    [|destruct (truthy (globalEndpoint (api c))) eqn:Hg];
    eexists; (split; [reflexivity|]); simpl; split_and!; try done.
  - by intros h ->.
  - intros Hn%Hfalsy. congruence.
  - intros Hn%Hfalsy. congruence.
  - intros h -> Hh. rewrite (Htruthy h Hh) in He. done.
  - by intros _ g ->.
  - intros _ Hn%Hfalsy. congruence.
  - intros h -> Hh. rewrite (Htruthy h Hh) in He. done.
  - intros _ g Hgl Hne. rewrite Hgl, (Htruthy g Hne) in Hg. done.
Qed.

(** C6, as stated, fails on an empty endpoint argument: it is explicit, and
    the host is the global endpoint all the same. *)
Lemma setEndpoint_empty_argument :
  globalEndpoint (api GlobalClient) = Some "fooservice.amazonaws.com" ∧
  host <$> endpoint (setEndpoint GlobalClient (Some EmptyString))
    = Some "fooservice.amazonaws.com" ∧
  host <$> endpoint (setEndpoint GlobalClient (Some EmptyString))
    ≠ Some EmptyString.
Proof. split; [reflexivity|]. split; [reflexivity|]. by vm_compute. Qed.

(** The cases of the test suite. *)
Example setEndpoint_specified :
  host <$> endpoint (setEndpoint GlobalClient
                       (Some "notfooservice.amazonaws.com"))
  = Some "notfooservice.amazonaws.com".
Proof. reflexivity. Qed.

Example setEndpoint_regional :
  host <$> endpoint (setEndpoint JsonClient None)
  = Some "fooservice.us-east-1.amazonaws.com".
Proof. reflexivity. Qed.

(** ** Claims on class selection *)

Section class_selection.

Variable require_api : string → option Api.
Variable effective_config : Config → Config.

Lemma resolution_normalized cls v1 v2 :
  normalize_version v1 = normalize_version v2 →
  getLatestClientVersion cls v1 = getLatestClientVersion cls v2.
Proof.
  intros Hn. unfold getLatestClientVersion.
  destruct (clients cls) as [reg|]; [|done]. simpl. by rewrite Hn.
Qed.

Lemma class_resolution_normalized cls v1 v2 :
  normalize_version v1 = normalize_version v2 →
  getLatestClientClass require_api cls v1 =
  getLatestClientClass require_api cls v2.
Proof.
  intros Hn. unfold getLatestClientClass.
  by rewrite (resolution_normalized cls v1 v2 Hn).
Qed.

Lemma class_resolution_absent cls version :
  absent version = true →
  getLatestClientClass require_api cls version =
  getLatestClientClass require_api cls (VString "latest").
Proof.
  intros Habs. apply class_resolution_normalized.
  unfold normalize_version. by rewrite Habs.
Qed.

(** C7, as amended.  [loadClientClass] decides in this order.  When the
    prototype's API is not empty, no class is substituted: the instance
    keeps that API.  Otherwise an [apiConfig] in the options is bound by
    [defineClientApi], the registry being neither read nor written.
    Otherwise, without a registry, no class is substituted and the instance,
    whose API is empty, has no operations.  Otherwise the class is the one
    [getLatestClientClass] resolves for the service's entry of
    [config.apiVersions] when it is present and not the empty string, else
    for [config.apiVersion] when it is present and not the empty string,
    else for ["latest"]. *)
Theorem loadClientClass_priority cls clientConfig :
  (isEmpty (proto_api cls) = false →
     loadClientClass require_api effective_config cls clientConfig
     = Ok (None, cls)) ∧
  (isEmpty (proto_api cls) = true →
     ∀ descriptor, apiConfig clientConfig = Some descriptor →
       ∃ bound,
         bound_api bound = descriptor ∧
         loadClientClass require_api effective_config cls clientConfig
         = Ok (Some bound, cls) ∧
         ∀ reg,
           loadClientClass require_api effective_config
             (with_clients cls reg) clientConfig
           = Ok (Some bound, with_clients cls reg)) ∧
  (isEmpty (proto_api cls) = true → apiConfig clientConfig = None →
     clients cls = None →
     loadClientClass require_api effective_config cls clientConfig
     = Ok (None, cls) ∧
     operations (proto_api cls) = None) ∧
  (isEmpty (proto_api cls) = true → apiConfig clientConfig = None →
     is_Some (clients cls) →
     let config := effective_config clientConfig in
     let entry :=
       default VUndefined
               (apiVersions config !! to_string (serviceIdentifier cls)) in
     loadClientClass require_api effective_config cls clientConfig
     = getLatestClientClass require_api cls
         (if absent entry
          then if absent (apiVersion config) then VString "latest"
               else apiVersion config
          else entry)).
Proof.
  split; [|split; [|split]].
  - intros Hne. unfold loadClientClass. by rewrite Hne.
  - intros He descriptor Hd. eexists. split; [|split; [|intros reg]].
    2:{ unfold loadClientClass. rewrite He, Hd. simpl. reflexivity. }
    2:{ unfold loadClientClass. simpl. rewrite He, Hd. simpl. reflexivity. }
    reflexivity.
  - intros He Hd Hc. split.
    + unfold loadClientClass. by rewrite He, Hd, Hc.
    + unfold isEmpty in He.
      destruct (operations (proto_api cls)); [|done].
      by destruct (format (proto_api cls)), (globalEndpoint (proto_api cls)),
        (endpointPrefix (proto_api cls)).
  - intros He Hd [reg Hc] config0 entry.
    unfold loadClientClass. rewrite He, Hd, Hc. simpl.
    unfold requested_version, version_or. fold config0. fold entry.
    destruct (absent entry) eqn:Hentry; [|done].
    destruct (absent (apiVersion config0)) eqn:Hglobal; [|done].
    by apply class_resolution_absent.
Qed.

End class_selection.

(** C7, as stated, fails on an empty service-specific version: the entry is
    present in [config.apiVersions], and the version asked for is
    [config.apiVersion] all the same, so that the class resolved is not the
    one the entry resolves to. *)
Lemma loadClientClass_empty_entry :
  apiVersions empty_entry_config !! "custom" = Some (VString EmptyString) ∧
  requested_version (fun cfg => cfg) CustomClient empty_entry_config
    = VString "2000-01-01" ∧
  requested_version (fun cfg => cfg) CustomClient empty_entry_config
    ≠ VString EmptyString ∧
  loadClientClass no_api_files (fun cfg => cfg) CustomClient
                  empty_entry_config
    = Throw "Could not find API configuration custom-1999-05-05" ∧
  getLatestClientClass no_api_files CustomClient (VString EmptyString)
    = Throw "Could not find API configuration custom-2001-01-01" ∧
  loadClientClass no_api_files (fun cfg => cfg) CustomClient
                  empty_entry_config
    ≠ getLatestClientClass no_api_files CustomClient (VString EmptyString).
Proof.
  assert (loadClientClass no_api_files (fun cfg => cfg) CustomClient
                          empty_entry_config
          = Throw "Could not find API configuration custom-1999-05-05")
    as Hload by (by vm_compute).
  assert (getLatestClientClass no_api_files CustomClient
                               (VString EmptyString)
          = Throw "Could not find API configuration custom-2001-01-01")
    as Hentry by (by vm_compute).
  split; [by vm_compute|]. split; [by vm_compute|].
  split; [by vm_compute|].
  split; [done|]. split; [done|]. by rewrite Hload, Hentry.
Qed.

(** The tests "uses service specific apiVersions before apiVersion" and
    "uses global apiVersion value when constructing versioned clients". *)
Example loadClientClass_service_specific :
  loadClientClass no_api_files (fun cfg => cfg) CustomClient
    {| region := None; maxRetries := None; paramValidation := true;
       config_endpoint := None; apiVersion := VString "2002-03-04";
       apiVersions := {[ "custom" := VString "2000-01-01" ]};
       apiConfig := None |}
  = Throw "Could not find API configuration custom-1999-05-05".
Proof. by vm_compute. Qed.

Example loadClientClass_global_version :
  loadClientClass no_api_files (fun cfg => cfg) CustomClient
    {| region := None; maxRetries := None; paramValidation := true;
       config_endpoint := None; apiVersion := VString "2002-03-04";
       apiVersions := ∅; apiConfig := None |}
  = Throw "Could not find API configuration custom-2001-01-01".
Proof. by vm_compute. Qed.

(** ** Claims on requests *)

Section requests.

Lemma serviceInterface_falsy c :
  truthy (format (api c)) = false → serviceInterface c = Ok None.
Proof.
  unfold serviceInterface. destruct (format (api c)) as [f|]; [|done].
  simpl. unfold truthy_string. intros Hf%negb_false_iff%String.eqb_eq.
  by subst f.
Qed.

Lemma serviceInterface_invalid c f :
  format (api c) = Some f → truthy_string f = true → f ∉ valid_formats →
  serviceInterface c = Throw (invalid_format_message f).
Proof.
  intros Hf Ht Hn. unfold serviceInterface. rewrite Hf. simpl.
  unfold valid_formats in Hn. rewrite !not_elem_of_cons in Hn.
  destruct Hn as (H1 & H2 & H3 & H4 & _).
  apply String.eqb_neq in H1, H2, H3, H4.
  by rewrite H1, H2, H3, H4, Ht.
Qed.

Lemma addAllRequestListeners_Ok c request interface :
  serviceInterface c = Ok interface →
  ∃ r, addAllRequestListeners c request = Ok r ∧
       request_client r = request_client request ∧
       operation r = operation request ∧
       params r = params request ∧
       listeners r = listeners request ∧
       sent r = sent request ∧
       listener_sets r =
         listener_sets request ++
         [AWS_events; EventListeners_Core] ++ option_list interface.
Proof.
  intros Hi. unfold addAllRequestListeners. rewrite Hi. simpl.
  unfold setupRequestListeners.
  destruct interface as [ls|], (paramValidation (config c)); simpl;
    eexists; (split; [reflexivity|]); simpl;
    rewrite <- ?app_assoc, ?app_nil_r; done.
Qed.

End requests.

(** C9, as amended.  On a client whose [serviceInterface] does not throw
    (its API format is one of the four, or none), [makeRequest] returns a
    request for the client and the operation.  Without a callback
    the request comes back unsent and without handler; with one it is sent,
    the callback being registered on ['complete'].  A function in the place
    of [params] is taken as the callback, [params] being the empty object.
    The registered handler calls the callback with [(resp.error,
    resp.data)]. *)
Theorem makeRequest_callback c op p callback interface :
  serviceInterface c = Ok interface →
  ∃ request,
    makeRequest c op p callback = Ok request ∧
    request_client request = c ∧
    operation request = op ∧
    (is_function p = false → callback = None →
       sent request = false ∧ listeners request = []) ∧
    (is_function p = false → ∀ f, callback = Some f →
       sent request = true ∧
       listeners request = [("complete", complete_callback f)]) ∧
    (∀ f, p = ParamsFunction f →
       params request = Some ∅ ∧ sent request = true ∧
       listeners request = [("complete", complete_callback f)]) ∧
    (∀ o, p = ParamsObject o → params request = Some o) ∧
    (∀ phase h, (phase, h) ∈ listeners request →
       phase = "complete" ∧
       ∃ f, h = complete_callback f ∧
            ∀ resp, run_handler h resp =
                    Some {| callee := f; call_this := resp;
                            call_arguments := (error resp, data resp) |}).
Proof.
  intros Hi. unfold makeRequest.
  set (p' := match p with
             | ParamsFunction _ => Some ∅
             | ParamsObject o => Some o
             | ParamsUndefined => None
             end).
  destruct (addAllRequestListeners_Ok c (new_Request c op p') interface Hi)
    as (r & -> & Hc & Hop & Hp & Hl & Hs & _).
  simpl in Hc, Hop, Hp, Hl, Hs. simpl.
  destruct p as [|o|g], callback as [f|];
    (eexists; split; [reflexivity|]); simpl;
    rewrite ?Hc, ?Hop, ?Hp, ?Hl, ?Hs; simpl; split_and!;
    try done; try (by intros; simplify_eq/=);
    intros phase h Hin;
    try (by apply elem_of_nil in Hin);
    apply list_elem_of_singleton in Hin; simplify_eq; eauto.
Qed.

Lemma makeRequest_callback_witness :
  serviceInterface JsonClient = Ok (Some EventListeners_Json) ∧
  ∃ request,
    makeRequest JsonClient "operationName"
                (ParamsFunction (Function "callback")) None = Ok request ∧
    params request = Some ∅ ∧ sent request = true ∧
    listeners request
      = [("complete", complete_callback (Function "callback"))].
Proof.
  split; [reflexivity|].
  destruct (makeRequest_callback JsonClient "operationName"
              (ParamsFunction (Function "callback")) None
              (Some EventListeners_Json) eq_refl)
    as (request & Hreq & _ & _ & _ & _ & Hfun & _).
  exists request. split; [exact Hreq|]. exact (Hfun _ eq_refl).
Defined.

(** C9, as stated, fails on a client whose API declares a format outside
    the four: [makeRequest] throws and returns no request. *)
Lemma makeRequest_invalid_format :
  format (api SoapClient) = Some "soap" ∧
  makeRequest SoapClient "operation" ParamsUndefined None
    = Throw "Invalid service `format' soap in API config" ∧
  ¬ (∃ request,
       makeRequest SoapClient "operation" ParamsUndefined None = Ok request).
Proof.
  split; [reflexivity|]. split; [reflexivity|].
  by intros [request Hreq].
Qed.

(** The test "does not send the request if a callback function is
    omitted". *)
Example makeRequest_unsent :
  ∃ request,
    makeRequest JsonClient "operation" ParamsUndefined None = Ok request ∧
    sent request = false.
Proof. eexists. split; reflexivity. Qed.

(** C10, as amended.  A format that is not the empty string and is none of
    [query], [json], [rest-json], [rest-xml] makes [serviceInterface] throw
    an error whose message carries that format.  Without a format, or with
    the empty string for one, [serviceInterface] returns no listener set,
    [addAllRequestListeners] attaches the two common sets only, and
    [makeRequest] still returns a request. *)
Theorem serviceInterface_format c :
  (∀ f, format (api c) = Some f → f ≠ EmptyString →
     f ∉ valid_formats →
     serviceInterface c
     = Throw ("Invalid service `format' " +:+ f +:+ " in API config")) ∧
  (format (api c) = None ∨ format (api c) = Some EmptyString →
     serviceInterface c = Ok None ∧
     (∀ request, ∃ r,
        addAllRequestListeners c request = Ok r ∧
        listener_sets r =
          listener_sets request ++ [AWS_events; EventListeners_Core]) ∧
     (∀ op p callback, ∃ r,
        makeRequest c op p callback = Ok r ∧
        listener_sets r = [AWS_events; EventListeners_Core])).
Proof.
  split.
  - intros f Hf Ht Hn. apply serviceInterface_invalid; [done| |done].
    unfold truthy_string. by apply String.eqb_neq in Ht as ->.
  - intros Hnone.
    assert (truthy (format (api c)) = false) as Hfalsy.
    { by destruct Hnone as [-> | ->]. }
    pose proof (serviceInterface_falsy c Hfalsy) as Hi.
    split; [done|]. split.
    + intros request.
      destruct (addAllRequestListeners_Ok c request None Hi)
        as (r & Hr & _ & _ & _ & _ & _ & Hls).
      exists r. split; [done|]. by rewrite Hls.
    + intros op p callback. unfold makeRequest.
      match goal with
      | |- context [addAllRequestListeners c ?r0] =>
          destruct (addAllRequestListeners_Ok c r0 None Hi)
            as (r & -> & _ & _ & _ & _ & _ & Hls)
      end.
      simpl in Hls. simpl.
      destruct p, callback; eexists; (split; [reflexivity|]); done.
Qed.

Lemma serviceInterface_format_witness :
  serviceInterface SoapClient
    = Throw "Invalid service `format' soap in API config" ∧
  serviceInterface FormatlessClient = Ok None ∧
  ∃ r, makeRequest FormatlessClient "operation" ParamsUndefined None = Ok r ∧
       listener_sets r = [AWS_events; EventListeners_Core].
Proof.
  destruct (serviceInterface_format SoapClient) as [Hinvalid _].
  destruct (serviceInterface_format FormatlessClient) as [_ Hnone].
  split.
  - apply (Hinvalid "soap" eq_refl); [done|].
    unfold valid_formats. rewrite !not_elem_of_cons.
    split_and!; try done. apply not_elem_of_nil.
  - destruct (Hnone (or_introl eq_refl)) as (Hi & _ & Hmake).
    split; [exact Hi|]. apply Hmake.
Defined.

(** C10, as stated, fails on the empty format: it is a format value outside
    the four, and [serviceInterface] throws nothing. *)
Lemma serviceInterface_empty_format :
  format (api EmptyFormatClient) = Some EmptyString ∧
  (EmptyString ∉ valid_formats) ∧
  serviceInterface EmptyFormatClient = Ok None ∧
  ¬ (∃ message, serviceInterface EmptyFormatClient = Throw message).
Proof.
  split; [reflexivity|]. split.
  - unfold valid_formats. rewrite !not_elem_of_cons.
    split_and!; try done. apply not_elem_of_nil.
  - split; [reflexivity|]. by intros [message Hm].
Qed.

(** ** Further properties of version resolution *)

Section resolution_properties.

Lemma messages_differ x y :
  "Could not find " +:+ x ≠ "No clients defined on " +:+ y.
Proof. intros H. vm_compute in H. discriminate. Qed.

Lemma to_primitive_differs y :
  to_primitive_message ≠ "No clients defined on " +:+ y.
Proof. intros H. vm_compute in H. discriminate. Qed.

Lemma to_primitive_differs_constraint y :
  to_primitive_message ≠ "Could not find " +:+ y.
Proof. intros H. vm_compute in H. discriminate. Qed.

Lemma registered_toString_dom (reg1 reg2 : registry) :
  dom reg1 = dom reg2 →
  registered reg1 "toString" → registered reg2 "toString".
Proof.
  intros Hdom Hr. apply elem_of_dom. rewrite <- Hdom. by apply elem_of_dom.
Qed.

Lemma normalize_string v : v ≠ EmptyString → normalize_version (VString v) = v.
Proof.
  intros Hv. unfold normalize_version. simpl. unfold truthy_string.
  by apply String.eqb_neq in Hv as ->.
Qed.

Lemma split_T_head_app day time :
  has_T day = false → split_T_head (day +:+ String "T" time) = day.
Proof.
  induction day as [|c day IH]; simpl; [done|].
  intros [Hc Hday]%orb_false_elim. rewrite Hc. by rewrite IH.
Qed.

Lemma split_T_head_no_T s : has_T (split_T_head s) = false.
Proof.
  induction s as [|c s IH]; simpl; [done|].
  destruct (Ascii.eqb c "T") eqn:Hc; simpl; [done|]. by rewrite Hc.
Qed.

Lemma registered_dom (reg : registry) k : registered reg k ↔ k ∈ dom reg.
Proof. unfold registered. by rewrite elem_of_dom. Qed.

Lemma greatest_key_le_dom (reg1 reg2 : registry) v k :
  dom reg1 = dom reg2 → greatest_key_le reg1 v k → greatest_key_le reg2 v k.
Proof.
  intros Hdom (Hr & Hle & Hmax).
  split; [|split; [done|]].
  - apply registered_dom. rewrite <- Hdom. by apply registered_dom.
  - intros k' Hr'. apply Hmax. apply registered_dom. rewrite Hdom.
    by apply registered_dom.
Qed.

Lemma resolution_dom cls1 cls2 (reg1 reg2 : registry) version :
  clients cls1 = Some reg1 → clients cls2 = Some reg2 →
  serviceIdentifier cls1 = serviceIdentifier cls2 →
  dom reg1 = dom reg2 →
  getLatestClientVersion cls1 version = getLatestClientVersion cls2 version.
Proof.
  intros H1 H2 Hsvc Hdom.
  destruct (decide (is_Some (reg1 !! "toString"))) as [Hts|Hts].
  { rewrite (resolution_to_primitive cls1 reg1 version H1 Hts).
    symmetry. apply (resolution_to_primitive cls2 reg2 version H2).
    by apply (registered_toString_dom reg1 reg2). }
  assert (¬ registered reg2 "toString") as Hts2.
  { intros Hr. apply Hts. by apply (registered_toString_dom reg2 reg1). }
  pose proof (resolution_cases cls1 reg1 version H1 Hts) as Hc1.
  pose proof (resolution_cases cls2 reg2 version H2 Hts2) as Hc2.
  destruct (getLatestClientVersion cls1 version) as [k1|m1].
  - symmetry. apply (resolution_greatest cls2 reg2); [done..|].
    by apply (greatest_key_le_dom reg1 reg2).
  - destruct Hc1 as [-> Hnone].
    destruct (getLatestClientVersion cls2 version) as [k2|m2].
    + destruct Hc2 as (Hr & Hle & _). destruct (Hnone k2); [|done].
      apply registered_dom. rewrite Hdom. by apply registered_dom.
    + destruct Hc2 as [-> _]. unfold version_constraint_message.
      by rewrite Hsvc.
Qed.

End resolution_properties.



(** X2.  Resolution is monotone in the version asked for: if a version
    resolves to [k1], every version that normalizes to a later one resolves
    too, to a key that is not before [k1]. *)
Theorem getLatestClientVersion_monotone cls reg v1 v2 k1 :
  clients cls = Some reg →
  str_le (normalize_version v1) (normalize_version v2) →
  getLatestClientVersion cls v1 = Ok k1 →
  ∃ k2, getLatestClientVersion cls v2 = Ok k2 ∧ str_le k1 k2.
Proof.
  intros Hreg Hle H1.
  pose proof (resolution_Ok_no_toString cls reg v1 k1 Hreg H1) as Hts.
  pose proof (resolution_cases cls reg v1 Hreg Hts) as Hc1.
  pose proof (resolution_cases cls reg v2 Hreg Hts) as Hc2.
  rewrite H1 in Hc1. destruct Hc1 as (Hr1 & Hle1 & _).
  assert (str_le k1 (normalize_version v2)) as Hk1 by (by etrans).
  destruct (getLatestClientVersion cls v2) as [k2|m].
  - exists k2. split; [done|]. destruct Hc2 as (_ & _ & Hmax). by apply Hmax.
  - destruct Hc2 as [_ Hnone]. by destruct (Hnone k1 Hr1).
Qed.

Lemma getLatestClientVersion_monotone_witness :
  ∃ k2, getLatestClientVersion CustomClient (VString "2005-01-01") = Ok k2 ∧
        str_le "1999-05-05" k2.
Proof.
  apply (getLatestClientVersion_monotone
           CustomClient (versions_hash custom_versions)
           (VString "2000-01-01") (VString "2005-01-01") "1999-05-05"
           eq_refl).
  - by vm_compute.
  - by vm_compute.
Defined.

(** X3.  A resolved key is a fixed point: asking for the key that a
    resolution returned, when it is not the empty string, returns that key
    again. *)
Theorem getLatestClientVersion_fixed_point cls reg version k :
  clients cls = Some reg →
  getLatestClientVersion cls version = Ok k →
  k ≠ EmptyString →
  getLatestClientVersion cls (VString k) = Ok k.
Proof.
  intros Hreg Hk Hne.
  pose proof (resolution_Ok_no_toString cls reg version k Hreg Hk) as Hts.
  pose proof (resolution_cases cls reg version Hreg Hts) as Hc.
  rewrite Hk in Hc. destruct Hc as (Hr & _ & _).
  apply (resolution_greatest cls reg); [done..|].
  rewrite (normalize_string k Hne).
  split; [done|]. split; [reflexivity|]. by intros k' _ Hle.
Qed.

Lemma getLatestClientVersion_fixed_point_witness :
  getLatestClientVersion CustomClient (VString "1999-05-05")
  = Ok "1999-05-05".
Proof.
  apply (getLatestClientVersion_fixed_point
           CustomClient (versions_hash custom_versions)
           (VString "2000-01-01") "1999-05-05" eq_refl).
  - by vm_compute.
  - done.
Defined.

(** X4.  The error "No clients defined on ..." is thrown exactly when the
    class has no registry at all; with a registry, be it empty, that error
    is never thrown. *)
Theorem getLatestClientVersion_no_clients_iff cls version :
  getLatestClientVersion cls version = Throw (no_clients_message cls) ↔
  clients cls = None.
Proof.
  split.
  - destruct (clients cls) as [reg|] eqn:Hreg; [|done].
    destruct (decide (is_Some (reg !! "toString"))) as [Hts|Hts].
    { rewrite (resolution_to_primitive cls reg version Hreg Hts).
      intros Hm. exfalso.
      apply (to_primitive_differs (to_string (serviceIdentifier cls))).
      change (to_primitive_message = no_clients_message cls). congruence. }
    pose proof (resolution_cases cls reg version Hreg Hts) as Hc.
    intros Hthrow. rewrite Hthrow in Hc. destruct Hc as [Hm _].
    unfold no_clients_message, version_constraint_message in Hm.
    symmetry in Hm. by apply messages_differ in Hm.
  - intros Hreg. unfold getLatestClientVersion. by rewrite Hreg.
Qed.

(** X5.  A [Date] is resolved as the string of its day: for a rendering
    [dayTtime] whose day is not empty and holds no [T], the result is the
    one of the version string [day]. *)
Theorem getLatestClientVersion_date cls day time :
  has_T day = false →
  day ≠ EmptyString →
  getLatestClientVersion cls (VDate (day +:+ String "T" time)) =
  getLatestClientVersion cls (VString day).
Proof.
  intros HT Hne. unfold getLatestClientVersion.
  destruct (clients cls) as [reg|]; [|done].
  rewrite (normalize_string day Hne).
  unfold normalize_version. simpl. by rewrite split_T_head_app.
Qed.

Lemma getLatestClientVersion_date_witness :
  getLatestClientVersion CustomClient (VDate "2000-06-15T12:00:00Z") =
  getLatestClientVersion CustomClient (VString "2000-06-15").
Proof.
  apply (getLatestClientVersion_date CustomClient "2000-06-15" "12:00:00Z").
  - reflexivity.
  - done.
Defined.



(** ** Further properties of class loading *)

Section loading_properties.

Variable require_api : string → option Api.
Variable effective_config : Config → Config.

Lemma defineClientApi_descriptor superclass a :
  defineClientApi require_api superclass (ApiDescriptor a)
  = Ok (bind_api superclass a, superclass).
Proof. reflexivity. Qed.

Lemma class_resolution_cases cls reg version :
  clients cls = Some reg →
  getLatestClientClass require_api cls version =
    match getLatestClientVersion cls version with
    | Throw m => Throw m
    | Ok k =>
        match reg !! k with
        | Some None =>
            match require_api (api_file cls k) with
            | None => Throw (api_not_found_message (api_file cls k))
            | Some a =>
                Ok (Some (bind_api cls a),
                    with_clients cls
                      (Some (<[k := Some (bind_api cls a)]> reg)))
            end
        | Some (Some c) => Ok (Some c, cls)
        | None => Ok (None, cls)
        end
    end.
Proof.
  intros Hreg. unfold getLatestClientClass.
  destruct (getLatestClientVersion cls version) as [k|m]; simpl; [|done].
  rewrite Hreg. destruct (reg !! k) as [[c|]|] eqn:Hk; simpl.
  - rewrite Hreg. simpl. by rewrite Hk.
  - unfold defineClientApi, api_file. simpl.
    destruct (require_api _) as [a|]; simpl; [|done].
    by rewrite lookup_insert_eq.
  - rewrite Hreg. simpl. by rewrite Hk.
Qed.

Lemma class_resolution_registry cls version r cls' :
  getLatestClientClass require_api cls version = Ok (r, cls') →
  ∃ reg k bound,
    clients cls = Some reg ∧
    getLatestClientVersion cls version = Ok k ∧
    registered reg k ∧
    r = Some bound ∧
    cls' = with_clients cls (Some (<[k := Some bound]> reg)) ∧
    (reg !! k = Some None ∧
     (∃ a, require_api (api_file cls k) = Some a ∧ bound = bind_api cls a)
     ∨ reg !! k = Some (Some bound)).
Proof.
  destruct (clients cls) as [reg|] eqn:Hreg.
  2:{ unfold getLatestClientClass, getLatestClientVersion.
      by rewrite Hreg. }
  rewrite (class_resolution_cases cls reg version Hreg).
  destruct (getLatestClientVersion cls version) as [k|m] eqn:Hv; [|done].
  pose proof (resolution_Ok_no_toString cls reg version k Hreg Hv) as Hts.
  pose proof (resolution_cases cls reg version Hreg Hts) as Hc.
  rewrite Hv in Hc. destruct Hc as (Hr & _ & _).
  destruct (reg !! k) as [[c|]|] eqn:Hk.
  - intros [= <- <-]. exists reg, k, c. split_and!; try done; [|by right].
    rewrite insert_id by done. by destruct cls; simplify_eq/=.
  - destruct (require_api (api_file cls k)) as [a|] eqn:Ha; [|done].
    intros [= <- <-]. exists reg, k, (bind_api cls a).
    split_and!; try done. left. eauto.
  - destruct Hr as [x Hx]. congruence.
Qed.

End loading_properties.

Section registry_properties.

Lemma foldl_insert_lookup (versions : list string) (reg : registry) k :
  foldl (fun reg v => <[v := None]> reg) reg versions !! k =
    if decide (k ∈ versions) then Some None else reg !! k.
Proof.
  revert reg. induction versions as [|v versions IH]; intros reg; simpl.
  - destruct (decide (k ∈ [])) as [Hin|_]; [|done].
    by apply elem_of_nil in Hin.
  - rewrite IH.
    destruct (decide (k ∈ versions)) as [Hin|Hnin].
    + rewrite decide_True; [done|]. by apply list_elem_of_further.
    + destruct (decide (k = v)) as [->|Hne].
      * rewrite decide_True by apply list_elem_of_here.
        by rewrite lookup_insert_eq.
      * rewrite decide_False.
        -- by rewrite lookup_insert_ne.
        -- rewrite elem_of_cons. intros [?|?]; done.
Qed.

Lemma versions_hash_lookup versions k :
  versions_hash versions !! k =
    if decide (k ∈ versions) then Some None else None.
Proof.
  unfold versions_hash. rewrite foldl_insert_lookup.
  by rewrite lookup_empty.
Qed.

End registry_properties.

(** X7.  A successful [getLatestClientClass] returns a class and leaves it
    in the registry under the resolved key; the registry keeps its keys,
    every other entry is as before, and an entry that was loaded already is
    the class returned, the registry being then unchanged. *)
Theorem getLatestClientClass_memoizes require_api cls version r cls' :
  getLatestClientClass require_api cls version = Ok (r, cls') →
  ∃ (reg reg' : registry) k bound,
    clients cls = Some reg ∧ clients cls' = Some reg' ∧
    getLatestClientVersion cls version = Ok k ∧
    r = Some bound ∧
    reg' !! k = Some (Some bound) ∧
    dom reg' = dom reg ∧
    (∀ k', k' ≠ k → reg' !! k' = reg !! k') ∧
    (∀ c, reg !! k = Some (Some c) → bound = c ∧ cls' = cls) ∧
    serviceIdentifier cls' = serviceIdentifier cls ∧
    proto_api cls' = proto_api cls ∧
    proto_members cls' = proto_members cls.
Proof.
  intros (reg & k & bound & Hreg & Hk & Hr & -> & -> & Hentry)
    %class_resolution_registry.
  exists reg, (<[k := Some bound]> reg), k, bound.
  split_and!; try done.
  - by rewrite lookup_insert_eq.
  - rewrite dom_insert_L. apply registered_dom in Hr.
    apply (anti_symm (⊆)).
    + apply union_least; [by apply singleton_subseteq_l|done].
    + apply union_subseteq_r.
  - intros k' Hne. by rewrite lookup_insert_ne.
  - intros c Hc. destruct Hentry as [[Hnull _]|Hloaded]; [congruence|].
    assert (bound = c) as -> by congruence. split; [done|].
    rewrite insert_id by done. by destruct cls; simplify_eq/=.
Qed.

Lemma getLatestClientClass_memoizes_witness :
  ∃ (reg reg' : registry) k bound,
    clients CustomClient = Some reg ∧
    getLatestClientVersion CustomClient (VString "2000-01-01") = Ok k ∧
    reg' !! k = Some (Some bound) ∧ dom reg' = dom reg.
Proof.
  destruct (getLatestClientClass_memoizes custom_catalog CustomClient
              (VString "2000-01-01")
              (Some (bind_api CustomClient (custom_api "v1999")))
              (with_clients CustomClient
                 (Some (<["1999-05-05" :=
                            Some (bind_api CustomClient
                                    (custom_api "v1999"))]>
                          (versions_hash custom_versions)))))
    as (reg & reg' & k & bound & Hreg & _ & Hk & _ & Hl & Hdom & _).
  { by vm_compute. }
  exists reg, reg', k, bound.
  exact (conj Hreg (conj Hk (conj Hl Hdom))).
Defined.

(** X8.  Loading is done once: after a successful [getLatestClientClass],
    the same call on the class it left returns the same class and the same
    registry, whatever the catalog holds by then. *)
Theorem getLatestClientClass_loads_once require_api cls version r cls' :
  getLatestClientClass require_api cls version = Ok (r, cls') →
  ∀ other_catalog,
    getLatestClientClass other_catalog cls' version = Ok (r, cls').
Proof.
  intros (reg & k & bound & Hreg & Hk & Hr & -> & -> & _)
    %class_resolution_registry other_catalog.
  set (reg' := <[k := Some bound]> reg).
  assert (clients (with_clients cls (Some reg')) = Some reg') as Hreg'
    by done.
  rewrite (class_resolution_cases other_catalog _ reg' version Hreg').
  assert (getLatestClientVersion (with_clients cls (Some reg')) version
          = Ok k) as ->.
  { rewrite <- Hk. symmetry.
    apply (resolution_dom cls _ reg reg'); [done..|].
    unfold reg'. rewrite dom_insert_L. apply registered_dom in Hr.
    apply (anti_symm (⊆)).
    - apply union_subseteq_r.
    - apply union_least; [by apply singleton_subseteq_l|done]. }
  unfold reg'. by rewrite lookup_insert_eq.
Qed.

Lemma getLatestClientClass_loads_once_witness :
  getLatestClientClass no_api_files
    (with_clients CustomClient
       (Some (<["1999-05-05" :=
                  Some (bind_api CustomClient (custom_api "v1999"))]>
                (versions_hash custom_versions))))
    (VString "2000-01-01")
  = Ok (Some (bind_api CustomClient (custom_api "v1999")),
        with_clients CustomClient
          (Some (<["1999-05-05" :=
                     Some (bind_api CustomClient (custom_api "v1999"))]>
                   (versions_hash custom_versions)))).
Proof.
  apply (getLatestClientClass_loads_once custom_catalog CustomClient).
  by vm_compute.
Defined.



(** X10.  Constructing a client of a versioned service with no version
    configured loads the API of the latest version: for a service defined by
    [defineClient] on ISO-date versions, without an API of its own and
    without [apiConfig], [loadClientClass] resolves the greatest version
    [k], and either throws for the missing file [service-k] or returns the
    class bound to that file's API and stores it under [k]. *)
Theorem loadClientClass_latest require_api effective_config
    service versions features options :
  feature_api features = None →
  apiConfig options = None →
  versions ≠ [] →
  (∀ k, k ∈ versions → is_iso_date k = true) →
  absent (requested_version effective_config
            (defineClient (ServiceIdentifier service) versions features)
            options) = true →
  let cls := defineClient (ServiceIdentifier service) versions features in
  ∃ k, k ∈ versions ∧ (∀ k', k' ∈ versions → str_le k' k) ∧
       loadClientClass require_api effective_config cls options =
         match require_api (service +:+ "-" +:+ k) with
         | None =>
             Throw ("Could not find API configuration " +:+
                    service +:+ "-" +:+ k)
         | Some a =>
             Ok (Some (bind_api cls a),
                 with_clients cls
                   (Some (<[k := Some (bind_api cls a)]>
                            (versions_hash versions))))
         end.
Proof.
  intros Hapi Hd Hne Hiso Habs cls.
  assert (clients cls = Some (versions_hash versions)) as Hreg by done.
  assert (¬ registered (versions_hash versions) "toString") as Hts.
  { apply iso_keys_no_toString. intros k Hk. apply Hiso.
    by apply registered_versions_hash. }
  pose proof (resolution_cases cls (versions_hash versions)
                (requested_version effective_config cls options) Hreg Hts)
    as Hc.
  assert (normalize_version
            (requested_version effective_config cls options) = "latest")
    as Hnorm.
  { unfold normalize_version, cls. by rewrite Habs. }
  rewrite Hnorm in Hc.
  assert (loadClientClass require_api effective_config cls options =
          getLatestClientClass require_api cls
            (requested_version effective_config cls options)) as ->.
  { unfold loadClientClass. rewrite Hd. simpl. by rewrite Hapi. }
  rewrite (class_resolution_cases require_api cls _ _ Hreg).
  destruct (getLatestClientVersion cls _) as [k|m].
  - destruct Hc as (Hr & _ & Hmax). exists k.
    apply registered_versions_hash in Hr as Hin. split; [done|]. split.
    + intros k' Hk'. apply Hmax; [by apply registered_versions_hash|].
      by apply iso_date_le_latest, Hiso.
    + rewrite versions_hash_lookup, decide_True by done. reflexivity.
  - destruct Hc as [_ Hnone]. destruct versions as [|v versions]; [done|].
    destruct (Hnone v).
    + apply registered_versions_hash, list_elem_of_here.
    + apply iso_date_le_latest, Hiso, list_elem_of_here.
Qed.

Lemma loadClientClass_latest_witness :
  ∃ k, k ∈ custom_versions ∧
       loadClientClass custom_catalog (fun cfg => cfg) CustomClient
                       default_config =
         match custom_catalog ("custom" +:+ "-" +:+ k) with
         | None =>
             Throw ("Could not find API configuration " +:+
                    "custom" +:+ "-" +:+ k)
         | Some a =>
             Ok (Some (bind_api CustomClient a),
                 with_clients CustomClient
                   (Some (<[k := Some (bind_api CustomClient a)]>
                            (versions_hash custom_versions))))
         end.
Proof.
  destruct (loadClientClass_latest custom_catalog (fun cfg => cfg)
              "custom" custom_versions no_features default_config
              eq_refl eq_refl) as (k & Hin & _ & Hload).
  - done.
  - intros k Hk. apply CustomClient_iso_keys.
    by apply registered_versions_hash.
  - reflexivity.
  - exists k. exact (conj Hin Hload).
Defined.

(** X11.  The registry [defineClient] builds from versions none of which
    is [__proto__] (a name whose assignment sets the prototype of the
    object) has the given versions for its keys, each one mapped to [null];
    the order of the versions and their repetitions make no difference. *)
Theorem defineClient_registry service versions features :
  "__proto__" ∉ versions →
  ∃ reg : registry,
    clients (defineClient (ServiceIdentifier service) versions features)
      = Some reg ∧
    serviceIdentifier
      (defineClient (ServiceIdentifier service) versions features)
      = Some service ∧
    (∀ k, k ∈ versions → reg !! k = Some None) ∧
    (∀ k, k ∉ versions → reg !! k = None) ∧
    (∀ versions',
       (∀ k, k ∈ versions ↔ k ∈ versions') →
       clients (defineClient (ServiceIdentifier service) versions' features)
       = Some reg).
Proof.
  intros _.
  exists (versions_hash versions). split_and!; try done.
  - intros k Hk. by rewrite versions_hash_lookup, decide_True.
  - intros k Hk. by rewrite versions_hash_lookup, decide_False.
  - intros versions' Hsame. simpl. f_equal. apply map_eq. intros k.
    rewrite !versions_hash_lookup.
    destruct (decide (k ∈ versions)) as [Hin|Hnin].
    + rewrite decide_True; [done|]. by apply Hsame.
    + rewrite decide_False; [done|]. by rewrite <- Hsame.
Qed.

Lemma defineClient_registry_witness :
  ∃ reg : registry,
    clients CustomClient = Some reg ∧
    reg !! "1999-05-05" = Some None ∧
    reg !! "2000-01-01" = None.
Proof.
  destruct (defineClient_registry "custom" custom_versions no_features)
    as (reg & Hreg & _ & Hin & Hout & _).
  { unfold custom_versions. rewrite !not_elem_of_cons.
    split_and!; try done. apply not_elem_of_nil. }
  exists reg. split; [exact Hreg|]. split.
  - apply Hin. unfold custom_versions. rewrite !elem_of_cons. auto.
  - apply Hout. unfold custom_versions. rewrite !not_elem_of_cons.
    split_and!; try done. apply not_elem_of_nil.
Defined.

(** ** Properties of [defineMethods] *)

Section define_methods.

Lemma foldl_add_prefix (ops members : list string) :
  members `prefix_of` foldl add_method members ops.
Proof.
  revert members. induction ops as [|op ops IH]; intros members; simpl.
  - done.
  - etrans; [|apply IH]. unfold add_method.
    destruct (bool_decide (op ∈ members)); [done|].
    by apply prefix_app_r.
Qed.

Lemma foldl_add_elem (ops members : list string) x :
  x ∈ foldl add_method members ops ↔ x ∈ members ∨ x ∈ ops.
Proof.
  revert members. induction ops as [|op ops IH]; intros members; simpl.
  - rewrite elem_of_nil. tauto.
  - rewrite IH, elem_of_cons. unfold add_method.
    destruct (bool_decide_reflect (op ∈ members)) as [Hin|Hnin].
    + split; [tauto|]. intros [?|[->|?]]; auto.
    + rewrite elem_of_app, list_elem_of_singleton. tauto.
Qed.

Lemma foldl_add_NoDup (ops members : list string) :
  NoDup members → NoDup (foldl add_method members ops).
Proof.
  revert members. induction ops as [|op ops IH]; intros members Hnd; simpl.
  - done.
  - apply IH. unfold add_method.
    destruct (bool_decide_reflect (op ∈ members)) as [Hin|Hnin]; [done|].
    apply NoDup_app. split; [done|]. split.
    + intros x Hx ->%list_elem_of_singleton. done.
    + apply NoDup_singleton.
Qed.

Lemma foldl_add_known (ops members : list string) :
  (∀ op, op ∈ ops → op ∈ members) → foldl add_method members ops = members.
Proof.
  revert members. induction ops as [|op ops IH]; intros members Hall; simpl.
  - done.
  - unfold add_method at 2. rewrite bool_decide_eq_true_2.
    + apply IH. intros op' Hop'. apply Hall. by apply list_elem_of_further.
    + apply Hall, list_elem_of_here.
Qed.

End define_methods.

(** X12.  [defineMethods] never touches what the prototype defines already:
    the names defined before come first and in their order, every operation
    of the API is defined afterwards, nothing else is, and no name is
    defined twice unless it was so before. *)
Theorem defineMethods_members members a :
  members `prefix_of` defineMethods members a ∧
  (∀ op, op ∈ default [] (operations a) → op ∈ defineMethods members a) ∧
  (∀ x, x ∈ defineMethods members a →
        x ∈ members ∨ x ∈ default [] (operations a)) ∧
  (NoDup members → NoDup (defineMethods members a)).
Proof.
  change (defineMethods members a)
    with (foldl add_method members (default [] (operations a))).
  split_and!.
  - apply foldl_add_prefix.
  - intros op Hop. apply foldl_add_elem. by right.
  - intros x Hx. by apply foldl_add_elem.
  - apply foldl_add_NoDup.
Qed.

(** X13.  Defining the methods of an API twice is defining them once, and an
    API without operations, or whose operations the prototype all defines
    already, adds nothing. *)
Theorem defineMethods_idempotent members a :
  defineMethods (defineMethods members a) a = defineMethods members a ∧
  (operations a = None → defineMethods members a = members) ∧
  ((∀ op, op ∈ default [] (operations a) → op ∈ members) →
   defineMethods members a = members).
Proof.
  change (defineMethods (defineMethods members a) a)
    with (foldl add_method
            (foldl add_method members (default [] (operations a)))
            (default [] (operations a))).
  change (defineMethods members a)
    with (foldl add_method members (default [] (operations a))).
  split_and!.
  - apply foldl_add_known. intros op Hop. apply foldl_add_elem. by right.
  - by intros ->.
  - apply foldl_add_known.
Qed.

(** X14.  The class [defineClientApi] returns carries the service
    identifier of its superclass, keeps every name the superclass prototype
    defines and has a method for every operation of its API.  Bound to a
    descriptor it leaves the superclass as it was; bound to a version it
    took the API from the file of that version and stored itself under
    that version. *)
Theorem defineClientApi_class require_api superclass source bound superclass' :
  defineClientApi require_api superclass source = Ok (bound, superclass') →
  bound_serviceIdentifier bound = serviceIdentifier superclass ∧
  (∀ m, m ∈ proto_members superclass → m ∈ bound_members bound) ∧
  (∀ op, op ∈ default [] (operations (bound_api bound)) →
         op ∈ bound_members bound) ∧
  match source with
  | ApiDescriptor a => bound_api bound = a ∧ superclass' = superclass
  | ApiVersion v =>
      ∃ reg : registry,
        clients superclass = Some reg ∧
        require_api (api_file superclass v) = Some (bound_api bound) ∧
        superclass' = with_clients superclass (Some (<[v := Some bound]> reg))
  end.
Proof.
  assert (∀ a,
            (∀ m, m ∈ proto_members superclass →
                  m ∈ bound_members (bind_api superclass a)) ∧
            (∀ op, op ∈ default [] (operations a) →
                   op ∈ bound_members (bind_api superclass a))) as Hbound.
  { intros a. unfold bind_api. simpl.
    change (defineMethods ?ms a)
      with (foldl add_method ms (default [] (operations a))).
    split.
    - intros m Hm. apply foldl_add_elem. left. apply elem_of_app. by left.
    - intros op Hop. apply foldl_add_elem. by right. }
  destruct source as [v|a].
  - unfold defineClientApi. fold (api_file superclass v).
    destruct (require_api (api_file superclass v)) as [a|] eqn:Ha; [|done].
    destruct (clients superclass) as [reg|] eqn:Hreg; [|done].
    intros [= <- <-]. fold (bind_api superclass a).
    destruct (Hbound a) as [Hm Hop]. split_and!; try done.
    exists reg. done.
  - intros [= <- <-]. fold (bind_api superclass a).
    destruct (Hbound a) as [Hm Hop]. done.
Qed.

Lemma defineClientApi_class_witness :
  ∃ bound,
    defineClientApi custom_catalog CustomClient (ApiVersion "2001-01-01")
    = Ok (bound,
          with_clients CustomClient
            (Some (<["2001-01-01" := Some bound]>
                     (versions_hash custom_versions)))) ∧
    "makeRequest" ∈ bound_members bound ∧
    "listThings" ∈ bound_members bound.
Proof.
  exists (bind_api CustomClient (custom_api "v2001")).
  assert (defineClientApi custom_catalog CustomClient
            (ApiVersion "2001-01-01")
          = Ok (bind_api CustomClient (custom_api "v2001"),
                with_clients CustomClient
                  (Some (<["2001-01-01" :=
                             Some (bind_api CustomClient
                                     (custom_api "v2001"))]>
                           (versions_hash custom_versions)))))
    as Hdef by reflexivity.
  destruct (defineClientApi_class custom_catalog CustomClient
              (ApiVersion "2001-01-01") _ _ Hdef)
    as (_ & Hmembers & Hops & _).
  split; [exact Hdef|]. split.
  - apply Hmembers. by vm_compute; repeat constructor.
  - apply Hops. by vm_compute; repeat constructor.
Defined.

(** X15.  A class that [defineClient] builds from an API descriptor has no
    registry and a method for every operation of the descriptor, beside the
    names of [AWS.Client.prototype]; constructing it without [apiConfig]
    substitutes no class and never throws. *)
Theorem defineClient_api_class require_api effective_config
    descriptor versions features options :
  let cls := defineClient (ServiceApi descriptor) versions features in
  clients cls = None ∧
  proto_api cls = descriptor ∧
  (∀ m, m ∈ Client_prototype_members → m ∈ proto_members cls) ∧
  (∀ op, op ∈ default [] (operations descriptor) →
         op ∈ proto_members cls) ∧
  (apiConfig options = None →
   loadClientClass require_api effective_config cls options
   = Ok (None, cls)).
Proof.
  intros cls. split_and!; try done.
  - intros m Hm.
    change (proto_members cls)
      with (foldl add_method
              (Client_prototype_members ++ feature_members features)
              (default [] (operations descriptor))).
    apply foldl_add_elem. left. apply elem_of_app. by left.
  - intros op Hop.
    change (proto_members cls)
      with (foldl add_method
              (Client_prototype_members ++ feature_members features)
              (default [] (operations descriptor))).
    apply foldl_add_elem. by right.
  - intros Hd. unfold loadClientClass. rewrite Hd.
    by destruct (isEmpty (proto_api cls)).
Qed.

(** ** Further properties of the retry policy *)

Section retry_properties.

Lemma total_delay_seq (n i : nat) :
  i + n ≤ 1020 →
  total_delay ((fun k => Some (delay_at k)) <$> seq i n)
  = Num (30 * 2 ^ Z.of_nat i * (2 ^ Z.of_nat n - 1))%Z.
Proof.
  revert i. induction n as [|n IH]; intros i Hin.
  - simpl. f_equal. lia.
  - change (total_delay ((fun k => Some (delay_at k)) <$> seq i (S n)))
      with (add_number (delay_at i)
              (total_delay ((fun k => Some (delay_at k)) <$> seq (S i) n))).
    rewrite IH by lia. rewrite delay_at_finite by lia.
    unfold delay. simpl. f_equal.
    rewrite !Nat2Z.inj_succ, !Z.pow_succ_r by lia. ring.
Qed.

End retry_properties.

(** X16.  The delay before a given retry does not depend on how many
    retries are allowed: the schedule of a client that retries less is a
    prefix of the schedule of a client that retries more. *)
Theorem retryDelays_prefix c1 c2 :
  numRetries c1 ≤ numRetries c2 →
  retryDelays c1 `prefix_of` retryDelays c2.
Proof.
  intros Hle. rewrite !retryDelays_spec.
  exists ((fun k => Some (delay_at k))
            <$> seq (numRetries c1) (numRetries c2 - numRetries c1)).
  rewrite <- fmap_app. f_equal.
  replace (numRetries c2)
    with (numRetries c1 + (numRetries c2 - numRetries c1)) at 1 by lia.
  by rewrite seq_app.
Qed.

Lemma retryDelays_prefix_witness :
  retryDelays (with_maxRetries JsonClient (Some 2))
  `prefix_of` retryDelays JsonClient.
Proof.
  apply (retryDelays_prefix (with_maxRetries JsonClient (Some 2)) JsonClient).
  vm_compute. lia.
Defined.

(** X17.  On a client with at most 1020 retries, the delays of the
    schedule add up to [30 * (2^n - 1)] for [n] retries: the waiting time of
    a request that exhausts its retries is less than twice its last
    delay. *)
Theorem retryDelays_total c :
  numRetries c ≤ 1020 →
  total_delay (retryDelays c)
  = Num (30 * (2 ^ Z.of_nat (numRetries c) - 1))%Z ∧
  (∀ last,
     retryDelays c !! (numRetries c - 1) = Some (Some (Num last)) →
     lt_number (total_delay (retryDelays c)) (Num (2 * last)%Z) = true).
Proof.
  intros Hn.
  assert (total_delay (retryDelays c)
          = Num (30 * (2 ^ Z.of_nat (numRetries c) - 1))%Z) as Htotal.
  { rewrite retryDelays_spec, total_delay_seq by lia.
    change (2 ^ Z.of_nat 0)%Z with 1%Z.
    by rewrite Z.mul_1_r. }
  split; [done|].
  intros last [Hlt Hlast]%retryDelays_lookup. rewrite Htotal.
  rewrite delay_at_finite in Hlast by lia. injection Hlast as ->.
  simpl. apply Z.ltb_lt. unfold delay.
  replace (Z.of_nat (numRetries c))
    with (Z.succ (Z.of_nat (numRetries c - 1))) at 1 by lia.
  rewrite Z.pow_succ_r by lia. lia.
Qed.

Lemma retryDelays_total_witness :
  total_delay (retryDelays JsonClient) = Num 210%Z.
Proof.
  assert (numRetries JsonClient ≤ 1020) as Hn by (vm_compute; lia).
  exact (proj1 (retryDelays_total JsonClient Hn)).
Defined.

(** X18.  Success and retry by status exclude each other: for a response
    that [successfulResponse] accepts, an error carrying its status is
    retried for its code alone, and an error retried for its status belongs
    to a response that [successfulResponse] rejects. *)
Theorem successfulResponse_retryableError httpResponse e :
  statusCode e = http_statusCode httpResponse →
  (successfulResponse httpResponse = true →
   retryableError e
   = networkingError e || expiredCredentialsError e || throttledError e) ∧
  (ge_500 (statusCode e) = true → successfulResponse httpResponse = false) ∧
  (successfulResponse httpResponse = true ↔
   ∃ s, http_statusCode httpResponse = Some s ∧ (s < 300)%Z).
Proof.
  intros Hs. unfold successfulResponse, retryableError. rewrite Hs.
  destruct (http_statusCode httpResponse) as [s|]; simpl.
  - split_and!.
    + intros Hlt%Z.ltb_lt.
      assert ((500 <=? s)%Z = false) as -> by (apply Z.leb_gt; lia).
      by destruct (networkingError e), (expiredCredentialsError e),
           (throttledError e).
    + intros Hge%Z.leb_le. apply Z.ltb_ge. lia.
    + rewrite Z.ltb_lt. split; [eauto|]. by intros (? & [= <-] & ?).
  - split_and!; try done. split; [done|]. by intros (? & ? & ?).
Qed.

Lemma successfulResponse_retryableError_witness :
  retryableError {| code := Some "NetworkingError";
                    statusCode := Some 200%Z |} = true ∧
  retryableError {| code := Some "Error"; statusCode := Some 200%Z |}
  = false.
Proof.
  split.
  - rewrite (proj1 (successfulResponse_retryableError
                      {| http_statusCode := Some 200%Z |}
                      {| code := Some "NetworkingError";
                         statusCode := Some 200%Z |} eq_refl) eq_refl).
    reflexivity.
  - rewrite (proj1 (successfulResponse_retryableError
                      {| http_statusCode := Some 200%Z |}
                      {| code := Some "Error";
                         statusCode := Some 200%Z |} eq_refl) eq_refl).
    reflexivity.
Defined.

(** ** Further properties of requests *)

(** X19.  [serviceInterface] returns a listener set exactly for the four
    formats, each format having its own. *)
Theorem serviceInterface_listeners c ls :
  serviceInterface c = Ok (Some ls) ↔
  (format (api c) = Some "query" ∧ ls = EventListeners_Query) ∨
  (format (api c) = Some "json" ∧ ls = EventListeners_Json) ∨
  (format (api c) = Some "rest-json" ∧ ls = EventListeners_RestJson) ∨
  (format (api c) = Some "rest-xml" ∧ ls = EventListeners_RestXml).
Proof.
  unfold serviceInterface. split.
  - destruct (eq_string (format (api c)) "query") eqn:H1.
    { apply eq_string_true in H1. intros [= <-]. by left. }
    destruct (eq_string (format (api c)) "json") eqn:H2.
    { apply eq_string_true in H2. intros [= <-]. right. by left. }
    destruct (eq_string (format (api c)) "rest-json") eqn:H3.
    { apply eq_string_true in H3. intros [= <-]. right. right. by left. }
    destruct (eq_string (format (api c)) "rest-xml") eqn:H4.
    { apply eq_string_true in H4. intros [= <-]. right. right. by right. }
    by destruct (truthy (format (api c))).
  - by intros [[-> ->]|[[-> ->]|[[-> ->]|[-> ->]]]].
Qed.

(** X20.  A request that [makeRequest] returns carries the listener sets
    [AWS.events], [EventListeners.Core] and that of the service interface,
    in this order and nothing else; parameter validation is removed from it
    exactly when [config.paramValidation] is off. *)
Theorem makeRequest_listener_sets c op p callback request :
  makeRequest c op p callback = Ok request →
  ∃ interface,
    serviceInterface c = Ok interface ∧
    listener_sets request
    = [AWS_events; EventListeners_Core] ++ option_list interface ∧
    removed_listeners request
    = (if paramValidation (config c) then []
       else [("validate", VALIDATE_PARAMETERS)]).
Proof.
  unfold makeRequest, addAllRequestListeners.
  destruct (serviceInterface c) as [interface|m]; [|done].
  intros Hreq. exists interface. split; [done|].
  unfold setupRequestListeners in Hreq. simpl in Hreq.
  destruct interface as [ls|], (paramValidation (config c)),
    p as [|o|g], callback as [f|]; simpl in Hreq;
    injection Hreq as <-; done.
Qed.

Lemma makeRequest_listener_sets_witness :
  ∃ request,
    makeRequest JsonClient "operationName"
                (ParamsFunction (Function "callback")) None = Ok request ∧
    listener_sets request
    = [AWS_events; EventListeners_Core; EventListeners_Json] ∧
    removed_listeners request = [].
Proof.
  destruct (makeRequest JsonClient "operationName"
              (ParamsFunction (Function "callback")) None)
    as [request|m] eqn:Hreq; [|vm_compute in Hreq; discriminate Hreq].
  exists request. split; [reflexivity|].
  destruct (makeRequest_listener_sets _ _ _ _ _ Hreq)
    as (interface & Hi & Hls & Hrm).
  injection Hi as <-. exact (conj Hls Hrm).
Defined.

(** X21.  [makeRequest] fails exactly when [serviceInterface] does, with its
    error, whatever the operation, the parameters and the callback; so does
    [addAllRequestListeners]. *)
Theorem makeRequest_throws c op p callback message :
  (makeRequest c op p callback = Throw message ↔
   serviceInterface c = Throw message) ∧
  (∀ request,
     addAllRequestListeners c request = Throw message ↔
     serviceInterface c = Throw message).
Proof.
  unfold makeRequest, addAllRequestListeners. split; [|intros request].
  - destruct (serviceInterface c) as [interface|m]; simpl.
    + split; [|done]. by destruct p, callback.
    + split; intros [= ->]; reflexivity.
  - destruct (serviceInterface c) as [interface|m]; simpl.
    + split; [|done]. unfold setupRequestListeners. done.
    + split; intros [= ->]; reflexivity.
Qed.

(** ** Further properties of the endpoint *)

Section endpoint_properties.

Lemma setEndpoint_frame c c' endpoint_arg :
  config c = config c' → api c = api c' →
  own_defaultRetryCount c = own_defaultRetryCount c' →
  setEndpoint c endpoint_arg = setEndpoint c' endpoint_arg.
Proof.
  intros Hc Ha Hd. unfold setEndpoint, set_endpoint, regional_host.
  by rewrite Hc, Ha, Hd.
Qed.

End endpoint_properties.

(** X22.  [setEndpoint] replaces the endpoint and nothing else: the last
    call wins, the configuration, the API and the retry count stay, and the
    endpoint it binds carries the configuration of the client. *)
Theorem setEndpoint_rebinds c earlier later :
  setEndpoint (setEndpoint c earlier) later = setEndpoint c later ∧
  config (setEndpoint c earlier) = config c ∧
  api (setEndpoint c earlier) = api c ∧
  numRetries (setEndpoint c earlier) = numRetries c ∧
  serviceInterface (setEndpoint c earlier) = serviceInterface c ∧
  ∃ e, endpoint (setEndpoint c earlier) = Some e ∧
       endpoint_config e = config c.
Proof.
  assert (config (setEndpoint c earlier) = config c ∧
          api (setEndpoint c earlier) = api c ∧
          own_defaultRetryCount (setEndpoint c earlier)
          = own_defaultRetryCount c) as (Hc & Ha & Hd).
  { unfold setEndpoint.
    by destruct (truthy earlier), (truthy (globalEndpoint (api c))). }
  split_and!; try done.
  - by apply setEndpoint_frame.
  - unfold numRetries, defaultRetryCount. by rewrite Hc, Hd.
  - unfold serviceInterface. by rewrite Ha.
  - unfold setEndpoint.
    destruct (truthy earlier), (truthy (globalEndpoint (api c)));
      eexists; (split; [reflexivity|]); done.
Qed.

(** X23.  [initialize] gives the client the global configuration, or the
    one updated with its options, and binds the endpoint for that
    configuration: the endpoint the configuration names, else the global
    endpoint of the API, else the regional host with the region of the new
    configuration.  The configuration and the endpoint the instance had
    before play no part, and initializing again with the same options
    changes nothing. *)
Theorem initialize_endpoint global_config effective_config this options :
  let cfg := match options with
             | Some o => effective_config o
             | None => global_config
             end in
  let c := initialize global_config effective_config this options in
  config c = cfg ∧
  api c = api this ∧
  (∃ e, endpoint c = Some e ∧ endpoint_config e = cfg ∧
        host e =
          if truthy (config_endpoint cfg) then to_string (config_endpoint cfg)
          else if truthy (globalEndpoint (api this))
               then to_string (globalEndpoint (api this))
               else to_string (endpointPrefix (api this)) +:+ "." +:+
                    to_string (region cfg) +:+ ".amazonaws.com") ∧
  (∀ previous_config previous_endpoint,
     initialize global_config effective_config
       {| config := previous_config; api := api this;
          own_defaultRetryCount := own_defaultRetryCount this;
          endpoint := previous_endpoint |} options = c) ∧
  initialize global_config effective_config c options = c.
Proof.
  intros cfg c.
  assert (∀ previous_config previous_endpoint,
            initialize global_config effective_config
              {| config := previous_config; api := api this;
                 own_defaultRetryCount := own_defaultRetryCount this;
                 endpoint := previous_endpoint |} options = c) as Hprev.
  { intros previous_config previous_endpoint. unfold c, initialize.
    fold cfg. simpl. unfold setEndpoint, set_endpoint, regional_host. simpl.
    by destruct (truthy (config_endpoint cfg)),
         (truthy (globalEndpoint (api this))). }
  assert (config c = cfg ∧ api c = api this ∧
          own_defaultRetryCount c = own_defaultRetryCount this)
    as (Hc & Ha & Hd).
  { unfold c, initialize. fold cfg. unfold setEndpoint. simpl.
    by destruct (truthy (config_endpoint cfg)),
         (truthy (globalEndpoint (api this))). }
  split_and!; try done.
  - unfold c, initialize. fold cfg. unfold setEndpoint, regional_host. simpl.
    destruct (truthy (config_endpoint cfg)),
      (truthy (globalEndpoint (api this)));
      eexists; (split; [reflexivity|]); done.
  - rewrite <- (Hprev (config c) (endpoint c)) at 2.
    rewrite <- Ha, <- Hd. by destruct c.
Qed.
